(** * LumiSync embedded: the stepper-motor driver [MotorControl]

    A shallow embedding of [lumisync-embedded/motor/MotorControl.{h,cpp}]
    and the properties of its position / stepping state machine.

    - C++ [int] is a signed machine integer whose width depends on the
      board (16 bits on AVR, 32 bits on ARM and ESP32).  It is modelled as
      a [Z] together with the two's-complement wrap-around [wrap_int] of a
      width [int_bits >= 16] that stays a parameter of the development.
    - [unsigned long] is 32 bits wide on every Arduino core; its
      subtraction wraps modulo [2^32].
    - Pin I/O ([pinMode], [digitalWrite]), [delay] and the step callback
      are external: every operation returns, next to the new driver state,
      the list of the external calls it made, in program order.
    - The step callback is caller code that can reach the driver while
      [moveToSync] runs, which is what the loop guard [m_motorActive] is
      for.  What each registered function does is a parameter,
      [callback_body]: the calls it makes into the driver, among those that
      neither move nor retarget it ([deactivateMotor], [setLastPosition],
      [setStepCallback]).  A callback that steps, moves or retargets the
      driver from inside [moveToSync] is outside the model.
    - [millis()] is an input: [update] takes the value it read.

    The older class of the same name in [lumisync-embedded/MotorControl.{h,cpp}]
    has the same [activateMotor], [deactivateMotor] and [stepMotor] and no
    target-seeking members; it is embedded as [LegacyMotorControl] and
    related to the newer class at the end of the development. *)

From Stdlib Require Import ZArith List Bool Lia.
Import ListNotations.
Local Open Scope Z_scope.

(** ** Arduino constants *)

Inductive Level : Type := LOW | HIGH.

Inductive PinMode : Type := INPUT | OUTPUT.

(** Modelled from the spec: [constrain] is a macro of [Arduino.h], which is
    not among the sources.  The spec describes it as clamping a target into
    [[minStep, maxStep]], saturating to the nearest bound; the definition is
    the macro's usual text,
    [((amt)<(low)?(low):((amt)>(high)?(high):(amt)))]. *)
Definition constrain (amt low high : Z) : Z :=
  if amt <? low then low else if amt >? high then high else amt.

(** ** External calls *)

(** The level handed to [digitalWrite] is read from the excitation table; a
    read outside the table has no defined value and is recorded as [None]. *)
Inductive Event : Type :=
| EvPinMode (pin : Z) (mode : PinMode)
| EvDigitalWrite (pin : Z) (level : option Level)
| EvDelay (ms : Z)
| EvCallback (callback : nat) (currentStep : Z).

Definition trace : Type := list Event.

(** ** The driver state *)

(** [m_stepCallback] is a function pointer: [None] is [nullptr], [Some f]
    identifies the registered function [f]. *)
Record MotorControl : Type := mkMotorControl {
  m_stepPins : list Z;
  m_minStep : Z;
  m_maxStep : Z;
  m_stepCallback : option nat;
  m_targetStep : Z;
  m_currentStep : Z;
  m_lastStepTime : Z;
  m_lastPosition : Z;
  m_clockwise : bool;
  m_motorActive : bool
}.

(** The constructor with the header's default member initialisers. *)
Definition newMotorControl (pins : list Z) (minStep maxStep : Z) : MotorControl :=
  {| m_stepPins := pins; m_minStep := minStep; m_maxStep := maxStep;
     m_stepCallback := None; m_targetStep := 0; m_currentStep := 0;
     m_lastStepTime := 0; m_lastPosition := 0;
     m_clockwise := true; m_motorActive := false |}.

Definition with_stepCallback (v : option nat) (m : MotorControl) : MotorControl :=
  {| m_stepPins := m_stepPins m; m_minStep := m_minStep m; m_maxStep := m_maxStep m;
     m_stepCallback := v; m_targetStep := m_targetStep m;
     m_currentStep := m_currentStep m; m_lastStepTime := m_lastStepTime m;
     m_lastPosition := m_lastPosition m;
     m_clockwise := m_clockwise m; m_motorActive := m_motorActive m |}.

Definition with_targetStep (v : Z) (m : MotorControl) : MotorControl :=
  {| m_stepPins := m_stepPins m; m_minStep := m_minStep m; m_maxStep := m_maxStep m;
     m_stepCallback := m_stepCallback m; m_targetStep := v;
     m_currentStep := m_currentStep m; m_lastStepTime := m_lastStepTime m;
     m_lastPosition := m_lastPosition m;
     m_clockwise := m_clockwise m; m_motorActive := m_motorActive m |}.

Definition with_currentStep (v : Z) (m : MotorControl) : MotorControl :=
  {| m_stepPins := m_stepPins m; m_minStep := m_minStep m; m_maxStep := m_maxStep m;
     m_stepCallback := m_stepCallback m; m_targetStep := m_targetStep m;
     m_currentStep := v; m_lastStepTime := m_lastStepTime m;
     m_lastPosition := m_lastPosition m;
     m_clockwise := m_clockwise m; m_motorActive := m_motorActive m |}.

Definition with_lastStepTime (v : Z) (m : MotorControl) : MotorControl :=
  {| m_stepPins := m_stepPins m; m_minStep := m_minStep m; m_maxStep := m_maxStep m;
     m_stepCallback := m_stepCallback m; m_targetStep := m_targetStep m;
     m_currentStep := m_currentStep m; m_lastStepTime := v;
     m_lastPosition := m_lastPosition m;
     m_clockwise := m_clockwise m; m_motorActive := m_motorActive m |}.

Definition with_lastPosition (v : Z) (m : MotorControl) : MotorControl :=
  {| m_stepPins := m_stepPins m; m_minStep := m_minStep m; m_maxStep := m_maxStep m;
     m_stepCallback := m_stepCallback m; m_targetStep := m_targetStep m;
     m_currentStep := m_currentStep m; m_lastStepTime := m_lastStepTime m;
     m_lastPosition := v;
     m_clockwise := m_clockwise m; m_motorActive := m_motorActive m |}.

Definition with_clockwise (v : bool) (m : MotorControl) : MotorControl :=
  {| m_stepPins := m_stepPins m; m_minStep := m_minStep m; m_maxStep := m_maxStep m;
     m_stepCallback := m_stepCallback m; m_targetStep := m_targetStep m;
     m_currentStep := m_currentStep m; m_lastStepTime := m_lastStepTime m;
     m_lastPosition := m_lastPosition m;
     m_clockwise := v; m_motorActive := m_motorActive m |}.

Definition with_motorActive (v : bool) (m : MotorControl) : MotorControl :=
  {| m_stepPins := m_stepPins m; m_minStep := m_minStep m; m_maxStep := m_maxStep m;
     m_stepCallback := m_stepCallback m; m_targetStep := m_targetStep m;
     m_currentStep := m_currentStep m; m_lastStepTime := m_lastStepTime m;
     m_lastPosition := m_lastPosition m;
     m_clockwise := m_clockwise m; m_motorActive := v |}.

(** ** Class constants *)

Definition stepCount : Z := 4.

Definition fullSteps : list (list Level) :=
  [ [HIGH; HIGH; LOW;  LOW ];
    [LOW;  HIGH; HIGH; LOW ];
    [LOW;  LOW;  HIGH; HIGH];
    [HIGH; LOW;  LOW;  HIGH] ].

Definition stepDelay : Z := 2.

(** [fullSteps[row][col]]; [None] outside the table. *)
Definition fullSteps_at (row : Z) (col : nat) : option Level :=
  if (0 <=? row) && (row <? stepCount)
  then match nth_error fullSteps (Z.to_nat row) with
       | Some r => nth_error r col
       | None => None
       end
  else None.

(** [m_stepPins[i]]: the driver only holds a pointer to the caller's pins. *)
Definition stepPin (m : MotorControl) (i : nat) : Z := nth i (m_stepPins m) 0.

(** [for (int i = 0; i < 4; i++) body(i)] for a body that only makes
    external calls. *)
Definition for_pins (body : nat -> trace) : trace := flat_map body (seq 0 4).

(** [unsigned long] arithmetic. *)
Definition ULONG_BITS : Z := 32.

Definition wrap_ulong (z : Z) : Z := z mod 2 ^ ULONG_BITS.

(** ** Inline members of the header *)

Definition setStepCallback (callback : option nat) (m : MotorControl) : MotorControl :=
  with_stepCallback callback m.

Definition getCurrentStep (m : MotorControl) : Z := m_currentStep m.

Definition setCurrentStep (currentStep : Z) (m : MotorControl) : MotorControl :=
  with_currentStep currentStep m.

Definition getLastPosition (m : MotorControl) : Z := m_lastPosition m.

Definition setLastPosition (lastPosition : Z) (m : MotorControl) : MotorControl :=
  with_lastPosition lastPosition m.

Definition isClockwise (m : MotorControl) : bool := m_clockwise m.

Definition isMotorActive (m : MotorControl) : bool := m_motorActive m.

(** ** Members that need no [int] arithmetic *)

Definition activateMotor (directionClockwise : bool) (m : MotorControl)
  : MotorControl * trace :=
  let tr := for_pins (fun i => [EvPinMode (stepPin m i) OUTPUT;
                                EvDigitalWrite (stepPin m i) (Some LOW)]) in
  let m1 := with_clockwise directionClockwise m in
  let m2 := with_motorActive true m1 in
  (with_lastPosition (m_currentStep m2) m2, tr).

Definition deactivateMotor (m : MotorControl) : MotorControl * trace :=
  let tr := for_pins (fun i => [EvPinMode (stepPin m i) INPUT]) in
  let m1 := with_motorActive false m in
  (with_lastPosition (m_currentStep m1) m1, tr).

(** The row of the excitation table [stepMotor] reads.  C++ [%] truncates
    towards zero: it is [Z.rem], not [Z.modulo]. *)
Definition stepIndex (m : MotorControl) : Z :=
  if m_clockwise m
  then Z.rem (m_currentStep m) stepCount
  else (stepCount - 1) - Z.rem (m_currentStep m) stepCount.

Definition moveTo (targetStep : Z) (m : MotorControl) : MotorControl * trace :=
  let m1 := with_targetStep (constrain targetStep (m_minStep m) (m_maxStep m)) m in
  if negb (m_currentStep m1 =? m_targetStep m1)
  then activateMotor (m_targetStep m1 >? m_currentStep m1) m1
  else (m1, []).

(** The invocation [m_stepCallback(m_currentStep)] as an external call: the
    function and the position it is handed; nothing for [nullptr]. *)
Definition stepCallbackEvent (m : MotorControl) : trace :=
  match m_stepCallback m with
  | Some f => [EvCallback f (m_currentStep m)]
  | None => []
  end.

(** The calls a step callback may make into the driver. *)
Inductive CallbackCall : Type :=
| CallDeactivateMotor
| CallSetLastPosition (lastPosition : Z)
| CallSetStepCallback (callback : option nat).

Definition run_call (c : CallbackCall) (m : MotorControl) : MotorControl * trace :=
  match c with
  | CallDeactivateMotor => deactivateMotor m
  | CallSetLastPosition z => (setLastPosition z m, [])
  | CallSetStepCallback f => (setStepCallback f m, [])
  end.

Fixpoint run_calls (calls : list CallbackCall) (m : MotorControl)
  : MotorControl * trace :=
  match calls with
  | [] => (m, [])
  | c :: calls' =>
      let (m1, tr1) := run_call c m in
      let (m2, tr2) := run_calls calls' m1 in
      (m2, tr1 ++ tr2)
  end.

(** The public operations of the class. *)
Inductive Op : Type :=
| OpUpdate (currentTime : Z)
| OpActivateMotor (directionClockwise : bool)
| OpDeactivateMotor
| OpStepMotor
| OpMoveTo (targetStep : Z)
| OpMoveToSync (targetStep : Z)
| OpSetStepCallback (callback : option nat)
| OpSetCurrentStep (currentStep : Z)
| OpSetLastPosition (lastPosition : Z).

(** ** Example drivers *)

Definition blindPins : list Z := [8; 9; 10; 11].

(** The driver of the spec's scenario: limits 0 and 200. *)
Definition blind : MotorControl := newMotorControl blindPins 0 200.

(** A driver whose limits lie on both sides of zero. *)
Definition centred : MotorControl := newMotorControl blindPins (-10) 10.

(** Callbacks that only look at the position they are handed. *)
Definition no_calls : nat -> MotorControl -> list CallbackCall :=
  fun _ _ => [].

(** Callbacks that call [deactivateMotor()] whenever they are invoked. *)
Definition stop_at_once : nat -> MotorControl -> list CallbackCall :=
  fun _ _ => [CallDeactivateMotor].

Section IntWidth.

(** The width of [int] on the target board. *)
Variable int_bits : Z.

Definition INT_MIN : Z := - 2 ^ (int_bits - 1).

Definition INT_MAX : Z := 2 ^ (int_bits - 1) - 1.

Definition in_int (z : Z) : Prop := INT_MIN <= z <= INT_MAX.

(** Two's-complement wrap-around of a result into [int]. *)
Definition wrap_int (z : Z) : Z :=
  (z + 2 ^ (int_bits - 1)) mod 2 ^ int_bits - 2 ^ (int_bits - 1).

Definition stepMotor (m : MotorControl) : MotorControl * trace :=
  let idx := stepIndex m in
  let tr := for_pins (fun i => [EvDigitalWrite (stepPin m i) (fullSteps_at idx i)]) in
  (with_currentStep
     (wrap_int (m_currentStep m + (if m_clockwise m then 1 else -1))) m,
   tr).

(** What the function registered as [f] does when it is called on the
    driver in state [m] (it is handed [m_currentStep m]): the calls it makes
    into the driver, in order. *)
Variable callback_body : nat -> MotorControl -> list CallbackCall.

(** [if (m_stepCallback != nullptr) m_stepCallback(m_currentStep);]: the
    invocation, then what the callback does to the driver. *)
Definition callStepCallback (m : MotorControl) : MotorControl * trace :=
  match m_stepCallback m with
  | Some f =>
      let (m', tr) := run_calls (callback_body f m) m in
      (m', EvCallback f (m_currentStep m) :: tr)
  | None => (m, [])
  end.

(** [currentTime] is the value [millis()] returned. *)
Definition update (currentTime : Z) (m : MotorControl) : MotorControl * trace :=
  if m_motorActive m then
    if (m_clockwise m && (m_currentStep m >=? m_targetStep m))
       || (negb (m_clockwise m) && (m_currentStep m <=? m_targetStep m))
    then deactivateMotor m
    else
      if wrap_ulong (currentTime - m_lastStepTime m) >=? stepDelay
      then let (m1, tr) := stepMotor m in
           (with_lastStepTime currentTime m1, tr)
      else (m, [])
  else (m, []).

(** The [while] loop of [moveToSync]; [None] when [fuel] iterations were not
    enough to leave it. *)
Fixpoint moveToSync_loop (fuel : nat) (m : MotorControl)
  : option (MotorControl * trace) :=
  if m_motorActive m && negb (m_currentStep m =? m_targetStep m) then
    match fuel with
    | O => None
    | S fuel' =>
        let (m1, tr1) := stepMotor m in
        let tr2 := [EvDelay stepDelay] in
        let (m2, tr3) := callStepCallback m1 in
        match moveToSync_loop fuel' m2 with
        | Some (m3, tr4) => Some (m3, tr1 ++ tr2 ++ tr3 ++ tr4)
        | None => None
        end
    end
  else Some (m, []).

Definition moveToSync (fuel : nat) (targetStep : Z) (m : MotorControl)
  : option (MotorControl * trace) :=
  let m1 := with_targetStep (constrain targetStep (m_minStep m) (m_maxStep m)) m in
  if m_currentStep m1 =? m_targetStep m1 then Some (m1, [])
  else
    let (m2, tr1) := activateMotor (m_targetStep m1 >? m_currentStep m1) m1 in
    match moveToSync_loop fuel m2 with
    | Some (m3, tr2) =>
        let (m4, tr3) := deactivateMotor m3 in
        Some (m4, tr1 ++ tr2 ++ tr3)
    | None => None
    end.

(** One public operation; only [moveToSync] loops. *)
Definition run_op (fuel : nat) (op : Op) (m : MotorControl)
  : option (MotorControl * trace) :=
  match op with
  | OpUpdate currentTime => Some (update currentTime m)
  | OpActivateMotor d => Some (activateMotor d m)
  | OpDeactivateMotor => Some (deactivateMotor m)
  | OpStepMotor => Some (stepMotor m)
  | OpMoveTo t => Some (moveTo t m)
  | OpMoveToSync t => moveToSync fuel t m
  | OpSetStepCallback f => Some (setStepCallback f m, [])
  | OpSetCurrentStep z => Some (setCurrentStep z m, [])
  | OpSetLastPosition z => Some (setLastPosition z m, [])
  end.

(** A sequence of public operations, one after the other. *)
Fixpoint run_ops (fuel : nat) (ops : list Op) (m : MotorControl)
  : option (MotorControl * trace) :=
  match ops with
  | [] => Some (m, [])
  | op :: ops' =>
      match run_op fuel op m with
      | Some (m1, tr1) =>
          match run_ops fuel ops' m1 with
          | Some (m2, tr2) => Some (m2, tr1 ++ tr2)
          | None => None
          end
      | None => None
      end
  end.

(** Consecutive [update] calls, each with the clock value it read. *)
Fixpoint run_updates (times : list Z) (m : MotorControl) : MotorControl * trace :=
  match times with
  | [] => (m, [])
  | t :: times' =>
      let (m1, tr1) := update t m in
      let (m2, tr2) := run_updates times' m1 in
      (m2, tr1 ++ tr2)
  end.

(** [n] consecutive [stepMotor] calls: the rows read, in call order, and the
    final state. *)
Fixpoint stepMotor_rows (n : nat) (m : MotorControl) : list Z * MotorControl :=
  match n with
  | O => ([], m)
  | S n' =>
      let idx := stepIndex m in
      let (rows, m') := stepMotor_rows n' (fst (stepMotor m)) in
      (idx :: rows, m')
  end.

(** ** Well-formed states and inputs *)

(** Every [int] member holds a value of the type. *)
Definition wf (m : MotorControl) : Prop :=
  in_int (m_currentStep m) /\ in_int (m_targetStep m) /\
  in_int (m_minStep m) /\ in_int (m_maxStep m).

(** [m_clockwise ? 1 : -1]. *)
Definition step_dir (clockwise : bool) : Z := if clockwise then 1 else -1.

(** The same driver, had it been constructed with other limits. *)
Definition with_limits (lo hi : Z) (m : MotorControl) : MotorControl :=
  {| m_stepPins := m_stepPins m; m_minStep := lo; m_maxStep := hi;
     m_stepCallback := m_stepCallback m; m_targetStep := m_targetStep m;
     m_currentStep := m_currentStep m; m_lastStepTime := m_lastStepTime m;
     m_lastPosition := m_lastPosition m;
     m_clockwise := m_clockwise m; m_motorActive := m_motorActive m |}.

(** ** Vocabulary of the properties *)

(** A pin write. *)
Definition isDigitalWrite (e : Event) : bool :=
  match e with EvDigitalWrite _ _ => true | _ => false end.

(** The external calls of the loop iteration that starts at position [pos]:
    the physical step, the delay, the callback with the position after the
    step. *)
Definition sync_iteration (m : MotorControl) (pos : Z) : trace :=
  snd (stepMotor (with_currentStep pos m))
  ++ [EvDelay stepDelay]
  ++ stepCallbackEvent (with_currentStep (pos + step_dir (m_clockwise m)) m).

(** The callback invocations of a trace, in order: function and argument. *)
Definition callbacks (tr : trace) : list (nat * Z) :=
  flat_map (fun e => match e with EvCallback f p => [(f, p)] | _ => [] end) tr.

(** The registered callback, if any, makes no call into the driver. *)
Definition quiet_callback (m : MotorControl) : Prop :=
  forall f, m_stepCallback m = Some f -> forall m', callback_body f m' = [].


(** Clock readings of consecutive [update] calls that lie at least
    [stepDelay] apart, as [unsigned long] differences; [prev] is the
    reading before the first of them. *)
Fixpoint paced_from (prev : Z) (times : list Z) : Prop :=
  match times with
  | [] => True
  | t :: times' => stepDelay <= wrap_ulong (t - prev) /\ paced_from t times'
  end.

(** The same for a whole run of calls; the first reading is free. *)
Definition paced (times : list Z) : Prop :=
  match times with
  | [] => True
  | t :: times' => paced_from t times'
  end.

(** The driver is idle at its target, or active and heading for it. *)
Definition on_course (m : MotorControl) : Prop :=
  in_int (m_currentStep m) /\ in_int (m_targetStep m) /\
  ((m_motorActive m = false /\ m_currentStep m = m_targetStep m)
   \/ (m_motorActive m = true
       /\ if m_clockwise m then m_currentStep m <= m_targetStep m
          else m_targetStep m <= m_currentStep m)).

(** How many [update] calls can still pass without a step, given the time
    elapsed between the last step and the latest clock reading. *)
Definition slack (elapsed : Z) : nat :=
  if elapsed =? 0 then 0%nat else if elapsed =? 1 then 1%nat else 2%nat.

(** The test of [update] for "target reached or overshot". *)
Definition reached (m : MotorControl) : bool :=
  (m_clockwise m && (m_currentStep m >=? m_targetStep m))
  || (negb (m_clockwise m) && (m_currentStep m <=? m_targetStep m)).

(** [targetStep] lies within the limits. *)
Definition in_bounds (m : MotorControl) : Prop :=
  m_minStep m <= m_targetStep m <= m_maxStep m.

(** The [int] arguments of an operation are values of the type. *)
Definition op_wf (op : Op) : Prop :=
  match op with
  | OpMoveTo t | OpMoveToSync t | OpSetCurrentStep t | OpSetLastPosition t => in_int t
  | _ => True
  end.

(** Iterations that are enough for any blocking move. *)
Definition enough_fuel (fuel : nat) : Prop := (Z.to_nat (2 ^ int_bits) <= fuel)%nat.

(** What one operation can do to the members the limits argument needs:
    it returns, keeps the state well formed and the limits as they are,
    and leaves [targetStep] alone or stores a clamped value. *)
Definition keeps_limits (m m' : MotorControl) : Prop :=
  wf m'
  /\ m_minStep m' = m_minStep m
  /\ m_maxStep m' = m_maxStep m
  /\ (m_targetStep m' = m_targetStep m
      \/ exists t, m_targetStep m' = constrain t (m_minStep m) (m_maxStep m)).

(** [pinMode] is called by [activateMotor] and [deactivateMotor] and by
    nothing else: a [pinMode] call in a trace marks a transition. *)
Definition isPinMode (e : Event) : bool :=
  match e with EvPinMode _ _ => true | _ => false end.

(** Operation [op], run in state [m], leaves [lastPosition] as it was or
    goes through an activation or a deactivation, after which
    [lastPosition] is the current position. *)
Definition lastPosition_only_at_transitions
  (fuel : nat) (op : Op) (m : MotorControl) : Prop :=
  forall m' tr,
    run_op fuel op m = Some (m', tr) ->
    m_lastPosition m' = m_lastPosition m
    \/ (existsb isPinMode tr = true /\ m_lastPosition m' = m_currentStep m').

(** ** The older class, [lumisync-embedded/MotorControl.{h,cpp}] *)

(** Its members: [currentStep] and [lastPosition] are public, there are no
    limits, no target, no clock and no callback. *)
Record LegacyMotorControl : Type := mkLegacyMotorControl {
  currentStep : Z;
  lastPosition : Z;
  stepPins : list Z;
  clockwise : bool;
  motorActive : bool
}.

Definition newLegacyMotorControl (pins : list Z) : LegacyMotorControl :=
  {| currentStep := 0; lastPosition := 0; stepPins := pins;
     clockwise := true; motorActive := false |}.

Definition legacy_activateMotor (directionClockwise : bool) (l : LegacyMotorControl)
  : LegacyMotorControl * trace :=
  let tr := for_pins (fun i => [EvPinMode (nth i (stepPins l) 0) OUTPUT;
                                EvDigitalWrite (nth i (stepPins l) 0) (Some LOW)]) in
  ({| currentStep := currentStep l; lastPosition := currentStep l;
      stepPins := stepPins l; clockwise := directionClockwise;
      motorActive := true |}, tr).

Definition legacy_deactivateMotor (l : LegacyMotorControl)
  : LegacyMotorControl * trace :=
  let tr := for_pins (fun i => [EvPinMode (nth i (stepPins l) 0) INPUT]) in
  ({| currentStep := currentStep l; lastPosition := currentStep l;
      stepPins := stepPins l; clockwise := clockwise l;
      motorActive := false |}, tr).

(** Here the number of rows is computed,
    [sizeof(fullSteps) / sizeof(fullSteps[0])]. *)
Definition legacy_stepMotor (l : LegacyMotorControl) : LegacyMotorControl * trace :=
  let rows := Z.of_nat (length fullSteps) in
  let idx := if clockwise l then Z.rem (currentStep l) rows
             else (rows - 1) - Z.rem (currentStep l) rows in
  let tr := for_pins (fun i => [EvDigitalWrite (nth i (stepPins l) 0)
                                               (fullSteps_at idx i)]) in
  ({| currentStep := wrap_int (currentStep l + (if clockwise l then 1 else -1));
      lastPosition := lastPosition l; stepPins := stepPins l;
      clockwise := clockwise l; motorActive := motorActive l |}, tr).

(** The three operations of the older class. *)
Inductive LegacyOp : Type :=
| LegacyActivateMotor (directionClockwise : bool)
| LegacyDeactivateMotor
| LegacyStepMotor.

Definition legacy_run_op (op : LegacyOp) (l : LegacyMotorControl)
  : LegacyMotorControl * trace :=
  match op with
  | LegacyActivateMotor d => legacy_activateMotor d l
  | LegacyDeactivateMotor => legacy_deactivateMotor l
  | LegacyStepMotor => legacy_stepMotor l
  end.

Fixpoint legacy_run_ops (ops : list LegacyOp) (l : LegacyMotorControl)
  : LegacyMotorControl * trace :=
  match ops with
  | [] => (l, [])
  | op :: ops' =>
      let (l1, tr1) := legacy_run_op op l in
      let (l2, tr2) := legacy_run_ops ops' l1 in
      (l2, tr1 ++ tr2)
  end.

(** The same call on the newer class. *)
Definition legacy_op (op : LegacyOp) : Op :=
  match op with
  | LegacyActivateMotor d => OpActivateMotor d
  | LegacyDeactivateMotor => OpDeactivateMotor
  | LegacyStepMotor => OpStepMotor
  end.

(** What the older class can see of a driver of the newer class. *)
Definition legacy_view (m : MotorControl) : LegacyMotorControl :=
  {| currentStep := m_currentStep m; lastPosition := m_lastPosition m;
     stepPins := m_stepPins m; clockwise := m_clockwise m;
     motorActive := m_motorActive m |}.

(** ** Vocabulary of the further properties *)

(** Whether the pins are driven after the [pinMode] calls of a trace, given
    whether they were before: [OUTPUT] drives, [INPUT] releases. *)
Fixpoint drive_state (tr : trace) (driven : bool) : bool :=
  match tr with
  | [] => driven
  | EvPinMode _ OUTPUT :: tr' => drive_state tr' true
  | EvPinMode _ INPUT :: tr' => drive_state tr' false
  | _ :: tr' => drive_state tr' driven
  end.

(** A call that touches a pin. *)
Definition isPinCall (e : Event) : bool :=
  match e with
  | EvPinMode _ _ | EvDigitalWrite _ _ => true
  | _ => false
  end.

(** The milliseconds a trace spends in [delay]. *)
Definition total_delay (tr : trace) : Z :=
  fold_right (fun e acc => match e with EvDelay ms => ms + acc | _ => acc end) 0 tr.




(** The operations that do not block: all but [moveToSync]. *)
Definition polled (op : Op) : Prop :=
  match op with
  | OpMoveToSync _ => False
  | _ => True
  end.

(** The operations other than [update]. *)
Definition not_update (op : Op) : Prop :=
  match op with
  | OpUpdate _ => False
  | _ => True
  end.

(** [m'] has the pins, limits, target, clock and direction of [m]: what a
    callback cannot touch, the position apart. *)
Definition course_frame (m m' : MotorControl) : Prop :=
  m_stepPins m' = m_stepPins m
  /\ m_minStep m' = m_minStep m
  /\ m_maxStep m' = m_maxStep m
  /\ m_targetStep m' = m_targetStep m
  /\ m_lastStepTime m' = m_lastStepTime m
  /\ m_clockwise m' = m_clockwise m.

(** The C standard guarantees at least 16 bits. *)
Hypothesis int_bits_ge : 16 <= int_bits.

(** ** Machine arithmetic *)

Lemma int_pow_half : 2 ^ int_bits = 2 * 2 ^ (int_bits - 1).
Proof.
  rewrite <- Z.pow_succ_r by lia. f_equal. lia.
Qed.

Lemma int_half_pos : 0 < 2 ^ (int_bits - 1).
Proof. apply Z.pow_pos_nonneg; lia. Qed.

Lemma int_half_large : 2 ^ 15 <= 2 ^ (int_bits - 1).
Proof. apply Z.pow_le_mono_r; lia. Qed.

Lemma wrap_int_small (z : Z) : in_int z -> wrap_int z = z.
Proof.
  unfold in_int, INT_MIN, INT_MAX, wrap_int. intros Hz.
  pose proof int_pow_half. pose proof int_half_pos.
  rewrite Z.mod_small; lia.
Qed.

Lemma wrap_int_in_int (z : Z) : in_int (wrap_int z).
Proof.
  unfold in_int, INT_MIN, INT_MAX, wrap_int.
  pose proof int_pow_half. pose proof int_half_pos.
  pose proof (Z.mod_pos_bound (z + 2 ^ (int_bits - 1)) (2 ^ int_bits)).
  lia.
Qed.

Lemma in_int_small (z : Z) : - 2 ^ 15 <= z < 2 ^ 15 -> in_int z.
Proof.
  unfold in_int, INT_MIN, INT_MAX. pose proof int_half_large. lia.
Qed.

Lemma constrain_in_int (amt low high : Z) :
  in_int amt -> in_int low -> in_int high -> in_int (constrain amt low high).
Proof.
  unfold constrain. intros.
  destruct (amt <? low); [assumption|]. destruct (amt >? high); assumption.
Qed.

Lemma constrain_bounds (amt low high : Z) :
  low <= high -> low <= constrain amt low high <= high.
Proof.
  unfold constrain. intros.
  destruct (Z.ltb_spec amt low); [lia|].
  rewrite Z.gtb_ltb. destruct (Z.ltb_spec high amt); lia.
Qed.

(** ** [stepMotor] *)

Lemma stepMotor_state (m : MotorControl) :
  fst (stepMotor m) =
  with_currentStep (wrap_int (m_currentStep m + step_dir (m_clockwise m))) m.
Proof. reflexivity. Qed.

Lemma stepMotor_exact (m : MotorControl) :
  in_int (m_currentStep m + step_dir (m_clockwise m)) ->
  fst (stepMotor m) =
  with_currentStep (m_currentStep m + step_dir (m_clockwise m)) m.
Proof.
  intros H. rewrite stepMotor_state, wrap_int_small by assumption. reflexivity.
Qed.

(** For a position that is not negative the row read is a row of the table. *)
Lemma stepIndex_in_table (m : MotorControl) :
  0 <= m_currentStep m -> 0 <= stepIndex m < stepCount.
Proof.
  intros H. unfold stepIndex, stepCount.
  pose proof (Z.rem_bound_pos (m_currentStep m) 4 H ltac:(lia)).
  destruct (m_clockwise m); lia.
Qed.

(** At a negative position that is not a multiple of 4 the row read is
    outside the table, in either direction. *)
Lemma stepIndex_outside_table (m : MotorControl) :
  m_currentStep m < 0 ->
  Z.rem (m_currentStep m) stepCount <> 0 ->
  stepIndex m < 0 \/ stepCount <= stepIndex m.
Proof.
  intros Hneg Hrem. unfold stepIndex, stepCount in *.
  pose proof (Z.rem_bound_neg_neg (m_currentStep m) 4).
  pose proof (Z.rem_nonpos (m_currentStep m) 4 ltac:(lia) ltac:(lia)).
  destruct (m_clockwise m); lia.
Qed.

(** Going clockwise from a position that is not negative, the rows read are
    [currentStep mod 4], [(currentStep + 1) mod 4], ...: the table is
    traversed forwards, with period 4. *)
Lemma stepMotor_rows_clockwise (n : nat) (m : MotorControl) :
  m_clockwise m = true ->
  0 <= m_currentStep m ->
  in_int (m_currentStep m + Z.of_nat n) ->
  stepMotor_rows n m =
  (map (fun k => (m_currentStep m + Z.of_nat k) mod 4) (seq 0 n),
   with_currentStep (m_currentStep m + Z.of_nat n) m).
Proof.
  revert m. induction n as [|n IH]; intros m Hcw Hpos Hmax.
  - simpl. rewrite Z.add_0_r. destruct m; reflexivity.
  - assert (Hin : in_int (m_currentStep m + step_dir (m_clockwise m))).
    { rewrite Hcw. simpl. pose proof (in_int_small 0 ltac:(lia)).
      unfold in_int in *. lia. }
    cbn [stepMotor_rows]. rewrite (stepMotor_exact m Hin), Hcw.
    rewrite IH; cbn [m_clockwise m_currentStep with_currentStep step_dir];
      [ | assumption | lia | replace (m_currentStep m + 1 + Z.of_nat n)
                               with (m_currentStep m + Z.of_nat (S n)) by lia;
                             assumption ].
    f_equal.
    + cbn [seq map]. f_equal.
      * unfold stepIndex. rewrite Hcw, Z.add_0_r. apply Z.rem_mod_nonneg; unfold stepCount; lia.
      * rewrite <- seq_shift, map_map. apply map_ext. intros k. f_equal. lia.
    + unfold with_currentStep; cbn. f_equal. lia.
Qed.

(** Going counter-clockwise through positions that are not negative, the
    rows read are [3 - currentStep mod 4], [3 - (currentStep - 1) mod 4],
    ...: as the position falls by one, the row read rises by one. *)
Lemma stepMotor_rows_counterclockwise (n : nat) (m : MotorControl) :
  m_clockwise m = false ->
  Z.of_nat n <= m_currentStep m + 1 ->
  in_int (m_currentStep m) ->
  stepMotor_rows n m =
  (map (fun k => 3 - (m_currentStep m - Z.of_nat k) mod 4) (seq 0 n),
   with_currentStep (m_currentStep m - Z.of_nat n) m).
Proof.
  revert m. induction n as [|n IH]; intros m Hcw Hpos Hmax.
  - simpl. rewrite Z.sub_0_r. destruct m; reflexivity.
  - assert (Hin : in_int (m_currentStep m + step_dir (m_clockwise m))).
    { rewrite Hcw. cbn [step_dir]. pose proof (in_int_small (-1) ltac:(lia)).
      unfold in_int in *. lia. }
    cbn [stepMotor_rows]. rewrite (stepMotor_exact m Hin), Hcw.
    rewrite IH; cbn [m_clockwise m_currentStep with_currentStep step_dir];
      [ | assumption | lia | rewrite Hcw in Hin; exact Hin ].
    f_equal.
    + cbn [seq map]. f_equal.
      * unfold stepIndex. rewrite Hcw, Z.sub_0_r.
        rewrite Z.rem_mod_nonneg by (unfold stepCount; lia). reflexivity.
      * rewrite <- seq_shift, map_map. apply map_ext. intros k. do 2 f_equal. lia.
    + unfold with_currentStep; cbn. f_equal. lia.
Qed.

(** C4: every [stepMotor] call whose new position is representable in [int]
    changes [currentStep] by exactly [+1] when the direction flag is
    clockwise and by exactly [-1] otherwise; and [stepMotor] does not look
    at the limits: with any other [minStep]/[maxStep] it makes the same
    external calls and reaches the same state, limits apart. *)
Theorem stepMotor_moves_by_one (m : MotorControl) :
  in_int (m_currentStep m + (if m_clockwise m then 1 else -1)) ->
  m_currentStep (fst (stepMotor m))
  = m_currentStep m + (if m_clockwise m then 1 else -1)
  /\ (forall lo hi,
        stepMotor (with_limits lo hi m)
        = (with_limits lo hi (fst (stepMotor m)), snd (stepMotor m))).
Proof.
  intros Hin. split.
  - rewrite stepMotor_exact by exact Hin. reflexivity.
  - intros lo hi. reflexivity.
Qed.

(** ** [deactivateMotor] *)

(** C8: on a driver that is already inactive, [deactivateMotor] changes
    neither [currentStep] nor the activation flag; all it does outside is
    set the four pins to [INPUT] once more, and a second call in a row
    leaves the state of the first. *)
Theorem deactivateMotor_idle_idempotent (m : MotorControl) :
  m_motorActive m = false ->
  m_currentStep (fst (deactivateMotor m)) = m_currentStep m
  /\ m_motorActive (fst (deactivateMotor m)) = m_motorActive m
  /\ snd (deactivateMotor m)
     = map (fun i => EvPinMode (stepPin m i) INPUT) (seq 0 4)
  /\ fst (deactivateMotor (fst (deactivateMotor m))) = fst (deactivateMotor m).
Proof.
  intros Hidle. repeat split.
  cbn. symmetry. exact Hidle.
Qed.

(** ** [update]: pacing *)

(** Before the pacing interval is over, [update] can only deactivate. *)
Lemma update_early (currentTime : Z) (m : MotorControl) :
  wrap_ulong (currentTime - m_lastStepTime m) < stepDelay ->
  update currentTime m
  = if m_motorActive m && reached m then deactivateMotor m else (m, []).
Proof.
  intros Hearly. unfold update, reached.
  destruct (m_motorActive m); [|reflexivity]. cbn [andb].
  destruct ((m_clockwise m && (m_currentStep m >=? m_targetStep m))
            || (negb (m_clockwise m) && (m_currentStep m <=? m_targetStep m)));
    [reflexivity|].
  rewrite Z.geb_leb.
  destruct (Z.leb_spec stepDelay (wrap_ulong (currentTime - m_lastStepTime m)));
    [lia|reflexivity].
Qed.

(** A step made by [update] is evidence that the pacing interval was over. *)
Lemma update_step_elapsed (currentTime : Z) (m : MotorControl) :
  m_currentStep (fst (update currentTime m)) <> m_currentStep m ->
  stepDelay <= wrap_ulong (currentTime - m_lastStepTime m).
Proof.
  intros Hmoved.
  destruct (Z.le_gt_cases stepDelay (wrap_ulong (currentTime - m_lastStepTime m)))
    as [Hle|Hlt]; [exact Hle|].
  exfalso. apply Hmoved. rewrite update_early by lia.
  destruct (m_motorActive m && reached m); reflexivity.
Qed.

(** C7: when fewer than [stepDelay] milliseconds have elapsed since
    [m_lastStepTime] (the elapsed time as [update] computes it, in
    [unsigned long]), a call of [update] leaves [currentStep] as it was and
    makes no [digitalWrite]; this holds in every state, active or not. *)
Theorem update_respects_pacing (currentTime : Z) (m : MotorControl) :
  wrap_ulong (currentTime - m_lastStepTime m) < stepDelay ->
  m_currentStep (fst (update currentTime m)) = m_currentStep m
  /\ existsb isDigitalWrite (snd (update currentTime m)) = false.
Proof.
  intros Hearly. rewrite update_early by exact Hearly.
  destruct (m_motorActive m && reached m); split; reflexivity.
Qed.

(** ** [moveToSync] when there is nothing to do *)

Lemma moveToSync_already_there_eq (fuel : nat) (target : Z) (m : MotorControl) :
  constrain target (m_minStep m) (m_maxStep m) = m_currentStep m ->
  moveToSync fuel target m = Some (with_targetStep (m_currentStep m) m, [])
  /\ with_targetStep (m_currentStep m) m
     = with_targetStep (constrain target (m_minStep m) (m_maxStep m)) m.
Proof.
  intros Hat. unfold moveToSync. rewrite Hat.
  cbn [m_currentStep m_targetStep with_targetStep].
  rewrite Z.eqb_refl. split; reflexivity.
Qed.

(** C10: when the clamped target is the current position, [moveToSync]
    returns at once (no iteration is needed) with only [targetStep]
    written: position, last position, direction and activation flag are
    those of the call state, and no external call was made. *)
Theorem moveToSync_already_there (fuel : nat) (target : Z) (m : MotorControl) :
  constrain target (m_minStep m) (m_maxStep m) = m_currentStep m ->
  exists m',
    moveToSync fuel target m = Some (m', [])
    /\ m' = with_targetStep (m_currentStep m) m
    /\ m_currentStep m' = m_currentStep m
    /\ m_lastPosition m' = m_lastPosition m
    /\ m_clockwise m' = m_clockwise m
    /\ m_motorActive m' = m_motorActive m.
Proof.
  intros Hat. exists (with_targetStep (m_currentStep m) m).
  destruct (moveToSync_already_there_eq fuel target m Hat) as [Hrun _].
  rewrite Hrun. repeat split.
Qed.

(** ** [moveToSync]: the blocking move *)

Lemma moveToSync_loop_exit (fuel : nat) (m : MotorControl) :
  m_motorActive m = false \/ m_currentStep m = m_targetStep m ->
  moveToSync_loop fuel m = Some (m, []).
Proof.
  intros Hexit.
  assert (Hcond : m_motorActive m && negb (m_currentStep m =? m_targetStep m) = false).
  { destruct Hexit as [-> | ->]; [reflexivity|].
    rewrite Z.eqb_refl. apply andb_false_r. }
  destruct fuel; cbn [moveToSync_loop]; rewrite Hcond; reflexivity.
Qed.

Lemma moveToSync_loop_iterate (fuel : nat) (m : MotorControl) :
  m_motorActive m = true ->
  m_currentStep m <> m_targetStep m ->
  moveToSync_loop (S fuel) m =
  match moveToSync_loop fuel (fst (callStepCallback (fst (stepMotor m)))) with
  | Some (m3, tr) =>
      Some (m3, snd (stepMotor m) ++ [EvDelay stepDelay]
                ++ snd (callStepCallback (fst (stepMotor m))) ++ tr)
  | None => None
  end.
Proof.
  intros Hact Hne. cbn [moveToSync_loop]. rewrite Hact.
  apply Z.eqb_neq in Hne. rewrite Hne. cbn [negb andb].
  destruct (stepMotor m) as [m1 tr1]. cbn [fst snd].
  destruct (callStepCallback m1) as [m2 tr3]. reflexivity.
Qed.

(** How a run of the loop that returns came about: it left at once, or made
    one iteration and ran on. *)
Lemma moveToSync_loop_inv (fuel : nat) (m m' : MotorControl) (tr : trace) :
  moveToSync_loop fuel m = Some (m', tr) ->
  (m' = m /\ tr = []
   /\ (m_motorActive m = false \/ m_currentStep m = m_targetStep m))
  \/ (exists fuel' tr',
        fuel = S fuel'
        /\ m_motorActive m = true
        /\ m_currentStep m <> m_targetStep m
        /\ moveToSync_loop fuel' (fst (callStepCallback (fst (stepMotor m))))
           = Some (m', tr')
        /\ tr = snd (stepMotor m) ++ [EvDelay stepDelay]
                ++ snd (callStepCallback (fst (stepMotor m))) ++ tr').
Proof.
  intros Hrun.
  destruct (m_motorActive m) eqn:Hact.
  2:{ left. rewrite moveToSync_loop_exit in Hrun by (left; exact Hact).
      injection Hrun as <- <-. repeat split. left. reflexivity. }
  destruct (Z.eq_dec (m_currentStep m) (m_targetStep m)) as [Heq|Hne].
  { left. rewrite moveToSync_loop_exit in Hrun by (right; exact Heq).
    injection Hrun as <- <-. repeat split. right. exact Heq. }
  right. destruct fuel as [|fuel'].
  { cbn [moveToSync_loop] in Hrun. rewrite Hact in Hrun.
    apply Z.eqb_neq in Hne. rewrite Hne in Hrun. discriminate. }
  rewrite moveToSync_loop_iterate in Hrun by assumption.
  destruct (moveToSync_loop fuel' _) as [[m3 tr']|] eqn:Hloop; [|discriminate].
  exists fuel', tr'. split; [reflexivity|]. split; [reflexivity|].
  split; [exact Hne|]. split; [congruence|]. congruence.
Qed.

Lemma flat_map_after_map {A B C : Type} (f : B -> list C) (g : A -> B) (l : list A) :
  flat_map f (map g l) = flat_map (fun a => f (g a)) l.
Proof.
  induction l as [|a l IH]; cbn [map flat_map]; [reflexivity|].
  rewrite IH. reflexivity.
Qed.

Lemma with_currentStep_same (m : MotorControl) :
  with_currentStep (m_currentStep m) m = m.
Proof. destruct m; reflexivity. Qed.

(** *** What a callback can do to the driver *)

Lemma run_call_frame (c : CallbackCall) (m : MotorControl) :
  course_frame m (fst (run_call c m))
  /\ m_currentStep (fst (run_call c m)) = m_currentStep m.
Proof. destruct c; repeat split. Qed.

Lemma run_calls_frame (calls : list CallbackCall) :
  forall m : MotorControl,
    course_frame m (fst (run_calls calls m))
    /\ m_currentStep (fst (run_calls calls m)) = m_currentStep m.
Proof.
  induction calls as [|c calls IH]; intros m; [repeat split|].
  cbn [run_calls].
  destruct (run_call_frame c m) as [Hf1 Hc1].
  destruct (run_call c m) as [m1 tr1]. cbn [fst] in *.
  destruct (IH m1) as [Hf2 Hc2].
  destruct (run_calls calls m1) as [m2 tr2]. cbn [fst] in *.
  unfold course_frame in *.
  destruct Hf1 as (A1 & A2 & A3 & A4 & A5 & A6).
  destruct Hf2 as (B1 & B2 & B3 & B4 & B5 & B6).
  repeat split; congruence.
Qed.

Lemma callStepCallback_frame (m : MotorControl) :
  course_frame m (fst (callStepCallback m))
  /\ m_currentStep (fst (callStepCallback m)) = m_currentStep m.
Proof.
  unfold callStepCallback. destruct (m_stepCallback m) as [f|]; [|repeat split].
  pose proof (run_calls_frame (callback_body f m) m) as Hframe.
  destruct (run_calls (callback_body f m) m). exact Hframe.
Qed.

Lemma callStepCallback_quiet (m : MotorControl) :
  quiet_callback m -> callStepCallback m = (m, stepCallbackEvent m).
Proof.
  unfold quiet_callback, callStepCallback, stepCallbackEvent. intros Hquiet.
  destruct (m_stepCallback m) as [f|]; [|reflexivity].
  rewrite (Hquiet f eq_refl). reflexivity.
Qed.

(** *** The loop, whatever the callback does *)

(** With the direction flag pointing at the target, [n] steps away, the
    loop returns after [k <= n] steps in that direction: all [n] of them
    unless the callback deactivates the driver first. *)
Lemma moveToSync_loop_returns (n : nat) :
  forall (m : MotorControl) (fuel : nat),
    in_int (m_currentStep m) ->
    in_int (m_targetStep m) ->
    m_targetStep m = m_currentStep m + step_dir (m_clockwise m) * Z.of_nat n ->
    (n <= fuel)%nat ->
    exists m' tr k,
      moveToSync_loop fuel m = Some (m', tr)
      /\ (k <= n)%nat
      /\ m_currentStep m'
         = m_currentStep m + step_dir (m_clockwise m) * Z.of_nat k
      /\ course_frame m m'.
Proof.
  induction n as [|n IH]; intros m fuel Hcur Htgt Hdist Hfuel.
  - rewrite Z.mul_0_r, Z.add_0_r in Hdist.
    exists m, [], 0%nat. rewrite moveToSync_loop_exit by (right; congruence).
    rewrite Z.mul_0_r, Z.add_0_r. repeat split. lia.
  - destruct (m_motorActive m) eqn:Hact.
    2:{ exists m, [], 0%nat. rewrite moveToSync_loop_exit by (left; exact Hact).
        rewrite Z.mul_0_r, Z.add_0_r. repeat split. lia. }
    destruct fuel as [|fuel]; [lia|].
    assert (Hdir : step_dir (m_clockwise m) = 1 \/ step_dir (m_clockwise m) = -1)
      by (destruct (m_clockwise m); cbn; lia).
    assert (Hne : m_currentStep m <> m_targetStep m) by nia.
    assert (Hin : in_int (m_currentStep m + step_dir (m_clockwise m)))
      by (unfold in_int in *; nia).
    rewrite moveToSync_loop_iterate by assumption.
    rewrite (stepMotor_exact m Hin).
    set (m1 := with_currentStep (m_currentStep m + step_dir (m_clockwise m)) m).
    destruct (callStepCallback_frame m1) as [Hframe Hpos].
    set (m2 := fst (callStepCallback m1)) in *.
    unfold course_frame in Hframe.
    destruct Hframe as (Epins & Emin & Emax & Etgt & Etime & Ecw).
    subst m1. cbn [m_stepPins m_minStep m_maxStep m_targetStep m_currentStep
                   m_lastStepTime m_clockwise with_currentStep] in *.
    destruct (IH m2 fuel) as (m' & tr & k & Hrun & Hk & Hcur' & Hframe');
      rewrite ?Hpos, ?Etgt, ?Ecw; try assumption; try lia.
    rewrite Hrun. eexists. eexists. exists (S k).
    split; [reflexivity|]. split; [lia|].
    rewrite Hpos, Ecw in Hcur'. split; [rewrite Hcur'; lia|].
    unfold course_frame in *.
    destruct Hframe' as (B1 & B2 & B3 & B4 & B5 & B6).
    repeat split; congruence.
Qed.

(** What a blocking move returns, whatever the callback does: a position
    between the start and the clamped target, with the driver inactive if
    it had some way to go. *)
Lemma moveToSync_returns (target : Z) (m : MotorControl) (fuel : nat) :
  wf m ->
  in_int target ->
  let goal := constrain target (m_minStep m) (m_maxStep m) in
  (Z.abs_nat (goal - m_currentStep m) <= fuel)%nat ->
  exists m' tr,
    moveToSync fuel target m = Some (m', tr)
    /\ m_stepPins m' = m_stepPins m
    /\ m_minStep m' = m_minStep m
    /\ m_maxStep m' = m_maxStep m
    /\ m_lastStepTime m' = m_lastStepTime m
    /\ m_targetStep m' = goal
    /\ Z.min (m_currentStep m) goal <= m_currentStep m'
       <= Z.max (m_currentStep m) goal
    /\ (m_currentStep m <> goal ->
        m_motorActive m' = false
        /\ m_lastPosition m' = m_currentStep m'
        /\ m_clockwise m' = (goal >? m_currentStep m)).
Proof.
  intros (Hcur & _ & Hmin & Hmax) Htarget goal Hfuel.
  pose proof (constrain_in_int target _ _ Htarget Hmin Hmax) as Hgoal.
  fold goal in Hgoal.
  unfold moveToSync. fold goal.
  cbn [m_currentStep m_targetStep with_targetStep].
  destruct (Z.eqb_spec (m_currentStep m) goal) as [Heq|Hne].
  - eexists. eexists. split; [reflexivity|]. cbn.
    repeat split; try reflexivity; try lia; contradiction.
  - set (cw := goal >? m_currentStep m).
    set (m2 := fst (activateMotor cw (with_targetStep goal m))).
    change (activateMotor cw (with_targetStep goal m))
      with (m2, snd (activateMotor cw m)).
    cbv iota beta.
    assert (Hdist : m_targetStep m2
                    = m_currentStep m2 + step_dir (m_clockwise m2)
                      * Z.of_nat (Z.abs_nat (goal - m_currentStep m))).
    { cbn. subst cw. rewrite Z.gtb_ltb.
      destruct (Z.ltb_spec (m_currentStep m) goal); cbn [step_dir]; lia. }
    destruct (moveToSync_loop_returns _ m2 fuel Hcur Hgoal Hdist Hfuel)
      as (m3 & tr & k & Hrun & Hk & Hcur3 & Hframe).
    rewrite Hrun. eexists. eexists. split; [reflexivity|].
    unfold course_frame in Hframe.
    destruct Hframe as (Epins & Emin & Emax & Etgt & Etime & Ecw).
    cbn [fst deactivateMotor m_stepPins m_minStep m_maxStep m_targetStep
         m_currentStep m_lastStepTime m_lastPosition m_clockwise m_motorActive
         with_lastPosition with_motorActive].
    rewrite Epins, Emin, Emax, Etgt, Etime, Ecw, Hcur3.
    subst m2. cbn [fst activateMotor m_stepPins m_minStep m_maxStep m_targetStep
                   m_currentStep m_lastStepTime m_clockwise
                   with_lastPosition with_motorActive with_clockwise with_targetStep].
    repeat split; try reflexivity;
      subst cw; rewrite Z.gtb_ltb;
      destruct (Z.ltb_spec (m_currentStep m) goal); cbn [step_dir]; lia.
Qed.

(** *** The loop with a callback that leaves the driver alone *)

Lemma quiet_callback_with_currentStep (p : Z) (m : MotorControl) :
  quiet_callback m -> quiet_callback (with_currentStep p m).
Proof. intros Hquiet. exact Hquiet. Qed.

(** With the direction flag pointing at the target and a quiet callback,
    the loop takes exactly the [n] steps that separate the position from
    the target. *)
Lemma moveToSync_loop_runs (n : nat) :
  forall (m : MotorControl) (fuel : nat),
    quiet_callback m ->
    m_motorActive m = true ->
    in_int (m_currentStep m) ->
    in_int (m_targetStep m) ->
    m_targetStep m = m_currentStep m + step_dir (m_clockwise m) * Z.of_nat n ->
    (n <= fuel)%nat ->
    moveToSync_loop fuel m =
    Some (with_currentStep (m_targetStep m) m,
          flat_map (fun k => sync_iteration m
                      (m_currentStep m + step_dir (m_clockwise m) * Z.of_nat k))
                   (seq 0 n)).
Proof.
  induction n as [|n IH]; intros m fuel Hquiet Hact Hcur Htgt Hdist Hfuel.
  - rewrite Z.mul_0_r, Z.add_0_r in Hdist.
    rewrite moveToSync_loop_exit by (right; congruence).
    rewrite Hdist, with_currentStep_same. reflexivity.
  - destruct fuel as [|fuel]; [lia|].
    assert (Hdir : step_dir (m_clockwise m) = 1 \/ step_dir (m_clockwise m) = -1)
      by (destruct (m_clockwise m); cbn; lia).
    assert (Hne : m_currentStep m <> m_targetStep m) by nia.
    assert (Hin : in_int (m_currentStep m + step_dir (m_clockwise m)))
      by (unfold in_int in *; nia).
    rewrite moveToSync_loop_iterate by assumption.
    rewrite (stepMotor_exact m Hin).
    rewrite (callStepCallback_quiet _
               (quiet_callback_with_currentStep _ m Hquiet)).
    cbn [fst snd].
    rewrite (IH (with_currentStep (m_currentStep m + step_dir (m_clockwise m)) m) fuel);
      cbn [m_motorActive m_currentStep m_targetStep m_clockwise with_currentStep];
      try assumption; try lia.
    f_equal. f_equal.
    cbn [seq flat_map].
    assert (Hhead :
      sync_iteration m (m_currentStep m + step_dir (m_clockwise m) * Z.of_nat 0)
      = snd (stepMotor m) ++ [EvDelay stepDelay]
        ++ stepCallbackEvent
             (with_currentStep (m_currentStep m + step_dir (m_clockwise m)) m)).
    { unfold sync_iteration.
      rewrite Z.mul_0_r, Z.add_0_r, with_currentStep_same. reflexivity. }
    rewrite Hhead, <- !app_assoc. do 3 f_equal.
    rewrite <- seq_shift, flat_map_after_map.
    apply flat_map_ext. intros k.
    unfold sync_iteration.
    cbn [m_clockwise with_currentStep].
    replace (m_currentStep m + step_dir (m_clockwise m)
             + step_dir (m_clockwise m) * Z.of_nat k)
      with (m_currentStep m + step_dir (m_clockwise m) * Z.of_nat (S k)) by lia.
    reflexivity.
Qed.

Lemma callbacks_app (tr1 tr2 : trace) :
  callbacks (tr1 ++ tr2) = callbacks tr1 ++ callbacks tr2.
Proof. unfold callbacks. apply flat_map_app. Qed.





(** What a blocking move that has some way to go returns when the callback
    leaves the driver alone: the state, and the external calls from
    activation to deactivation. *)
Lemma moveToSync_travel (target : Z) (m : MotorControl) (fuel : nat) :
  wf m ->
  in_int target ->
  quiet_callback m ->
  let goal := constrain target (m_minStep m) (m_maxStep m) in
  let cw := goal >? m_currentStep m in
  let n := Z.abs_nat (goal - m_currentStep m) in
  m_currentStep m <> goal ->
  (n <= fuel)%nat ->
  moveToSync fuel target m =
  Some ({| m_stepPins := m_stepPins m; m_minStep := m_minStep m;
           m_maxStep := m_maxStep m; m_stepCallback := m_stepCallback m;
           m_targetStep := goal; m_currentStep := goal;
           m_lastStepTime := m_lastStepTime m; m_lastPosition := goal;
           m_clockwise := cw; m_motorActive := false |},
        snd (activateMotor cw m)
        ++ flat_map (fun k => sync_iteration (with_clockwise cw m)
                       (m_currentStep m + step_dir cw * Z.of_nat k))
                    (seq 0 n)
        ++ snd (deactivateMotor m)).
Proof.
  intros (Hcur & _ & Hmin & Hmax) Htarget Hquiet goal cw n Hne Hfuel.
  pose proof (constrain_in_int target _ _ Htarget Hmin Hmax) as Hgoal.
  fold goal in Hgoal.
  unfold moveToSync. fold goal.
  cbn [m_currentStep m_targetStep with_targetStep].
  destruct (Z.eqb_spec (m_currentStep m) goal) as [|_]; [contradiction|].
  fold cw.
  set (m2 := fst (activateMotor cw (with_targetStep goal m))).
  change (activateMotor cw (with_targetStep goal m))
    with (m2, snd (activateMotor cw m)).
  cbv iota beta.
  assert (Hdist : m_targetStep m2
                  = m_currentStep m2 + step_dir (m_clockwise m2) * Z.of_nat n).
  { cbn. subst cw n. rewrite Z.gtb_ltb.
    destruct (Z.ltb_spec (m_currentStep m) goal); cbn [step_dir]; lia. }
  rewrite (moveToSync_loop_runs n m2 fuel); try assumption; reflexivity.
Qed.


(** ** [moveTo] and [update]: the polled move *)

Lemma slack_le_2 (elapsed : Z) : (slack elapsed <= 2)%nat.
Proof. unfold slack. destruct (elapsed =? 0), (elapsed =? 1); lia. Qed.

Lemma slack_decreases (prev t last : Z) :
  stepDelay <= wrap_ulong (t - prev) ->
  wrap_ulong (t - last) < stepDelay ->
  (slack (wrap_ulong (t - last)) < slack (wrap_ulong (prev - last)))%nat.
Proof.
  unfold wrap_ulong, stepDelay, slack, ULONG_BITS.
  change (2 ^ 32) with 4294967296.
  replace (t - last) with ((prev - last) + (t - prev)) by lia.
  generalize (prev - last) (t - prev). intros e d Hd He.
  destruct (Z.eqb_spec ((e + d) mod 4294967296) 0);
  destruct (Z.eqb_spec ((e + d) mod 4294967296) 1);
  destruct (Z.eqb_spec (e mod 4294967296) 0);
  destruct (Z.eqb_spec (e mod 4294967296) 1);
  try lia; exfalso; Z.div_mod_to_equations; lia.
Qed.

Lemma update_idle (t : Z) (m : MotorControl) :
  m_motorActive m = false -> update t m = (m, []).
Proof. intros Hidle. unfold update. rewrite Hidle. reflexivity. Qed.

Lemma run_updates_idle (times : list Z) (m : MotorControl) :
  m_motorActive m = false -> run_updates times m = (m, []).
Proof.
  intros Hidle. induction times as [|t times IH]; [reflexivity|].
  cbn [run_updates]. rewrite (update_idle t m Hidle), IH. reflexivity.
Qed.

Lemma fst_run_updates_cons (t : Z) (times : list Z) (m : MotorControl) :
  fst (run_updates (t :: times) m) = fst (run_updates times (fst (update t m))).
Proof.
  cbn [run_updates]. destruct (update t m) as [m1 tr1]. cbn [fst].
  destruct (run_updates times m1). reflexivity.
Qed.

Lemma update_cases (t : Z) (m : MotorControl) :
  m_motorActive m = true ->
  update t m =
  if reached m then deactivateMotor m
  else if stepDelay <=? wrap_ulong (t - m_lastStepTime m)
       then (with_lastStepTime t (fst (stepMotor m)), snd (stepMotor m))
       else (m, []).
Proof.
  intros Hact. unfold update, reached. rewrite Hact, !Z.geb_leb. reflexivity.
Qed.

Lemma reached_on_course (m : MotorControl) :
  (if m_clockwise m then m_currentStep m <= m_targetStep m
   else m_targetStep m <= m_currentStep m) ->
  if reached m then m_currentStep m = m_targetStep m
  else 0 < step_dir (m_clockwise m) * (m_targetStep m - m_currentStep m).
Proof.
  unfold reached. rewrite Z.geb_leb.
  destruct (m_clockwise m); intros Hdir;
    destruct (Z.leb_spec (m_targetStep m) (m_currentStep m));
    destruct (Z.leb_spec (m_currentStep m) (m_targetStep m));
    cbn [andb orb negb step_dir]; lia.
Qed.

(** Polling an on-course driver with a paced clock brings it to rest at its
    target: one call per remaining step, the calls lost to pacing before
    the first step, and one call to deactivate. *)
Lemma run_updates_on_course (times : list Z) :
  forall (prev : Z) (m : MotorControl),
    on_course m ->
    paced_from prev times ->
    (Z.abs_nat (m_targetStep m - m_currentStep m)
     + slack (wrap_ulong (prev - m_lastStepTime m)) + 1 <= length times)%nat ->
    m_currentStep (fst (run_updates times m)) = m_targetStep m
    /\ m_motorActive (fst (run_updates times m)) = false.
Proof.
  induction times as [|t times IH]; intros prev m Hcourse Hpaced Hlen;
    [cbn in Hlen; lia|].
  destruct Hcourse as (Hcur & Htgt & [[Hidle Hat] | [Hact Hdir]]).
  { rewrite run_updates_idle by exact Hidle. cbn [fst]. split; assumption. }
  destruct Hpaced as [Hgap Hpaced]. cbn [length] in Hlen.
  rewrite fst_run_updates_cons, (update_cases t m Hact).
  pose proof (reached_on_course m Hdir) as Hreached.
  destruct (reached m).
  - rewrite run_updates_idle by reflexivity. cbn. split; [exact Hreached|reflexivity].
  - assert (Hsign : step_dir (m_clockwise m) = 1 \/ step_dir (m_clockwise m) = -1)
      by (destruct (m_clockwise m); cbn; lia).
    destruct (Z.leb_spec stepDelay (wrap_ulong (t - m_lastStepTime m)))
      as [Hdue|Hearly]; cbn [fst].
    + assert (Hin : in_int (m_currentStep m + step_dir (m_clockwise m)))
        by (unfold in_int in *; nia).
      rewrite (stepMotor_exact m Hin).
      set (m1 := with_lastStepTime t
                   (with_currentStep (m_currentStep m + step_dir (m_clockwise m)) m)).
      destruct (IH t m1) as [Hgoal Hoff].
      * unfold on_course. subst m1.
        cbn [m_currentStep m_targetStep m_motorActive m_clockwise
             with_currentStep with_lastStepTime].
        split; [exact Hin|]. split; [exact Htgt|].
        right. split; [exact Hact|].
        destruct (m_clockwise m); cbn [step_dir] in *; lia.
      * exact Hpaced.
      * subst m1. cbn [m_currentStep m_targetStep m_lastStepTime
                       with_currentStep with_lastStepTime].
        rewrite Z.sub_diag. change (slack (wrap_ulong 0)) with 0%nat. nia.
      * split; assumption.
    + pose proof (slack_decreases prev t (m_lastStepTime m) Hgap Hearly).
      apply (IH t m).
      * unfold on_course. split; [exact Hcur|]. split; [exact Htgt|].
        right. split; assumption.
      * exact Hpaced.
      * lia.
Qed.

Lemma moveTo_on_course (target : Z) (m : MotorControl) :
  wf m ->
  in_int target ->
  on_course (fst (moveTo target m))
  /\ m_targetStep (fst (moveTo target m))
     = constrain target (m_minStep m) (m_maxStep m)
  /\ m_currentStep (fst (moveTo target m)) = m_currentStep m.
Proof.
  intros (Hcur & _ & Hmin & Hmax) Htarget.
  pose proof (constrain_in_int target _ _ Htarget Hmin Hmax) as Hgoal.
  unfold moveTo, on_course.
  cbn [m_currentStep m_targetStep with_targetStep].
  destruct (Z.eqb_spec (m_currentStep m)
              (constrain target (m_minStep m) (m_maxStep m))) as [Heq|Hne];
    cbn [negb fst activateMotor m_currentStep m_targetStep m_motorActive
         m_clockwise with_targetStep with_clockwise with_motorActive
         with_lastPosition].
  - split; [|split; reflexivity].
    split; [exact Hcur|]. split; [exact Hgoal|].
    destruct (m_motorActive m) eqn:Hact.
    + right. split; [reflexivity|]. destruct (m_clockwise m); lia.
    + left. split; [reflexivity|assumption].
  - split; [|split; reflexivity].
    split; [exact Hcur|]. split; [exact Hgoal|].
    right. split; [reflexivity|]. rewrite Z.gtb_ltb.
    destruct (Z.ltb_spec (m_currentStep m)
                (constrain target (m_minStep m) (m_maxStep m))); lia.
Qed.

(** C3: after [moveTo target], polling [update] with clock readings at
    least [stepDelay] apart, [|goal - currentStep| + 3] calls or more,
    leaves [currentStep] at exactly the clamped target with the driver
    inactive; from there on [update] changes nothing and makes no external
    call, whatever the clock reads. *)
Theorem moveTo_then_updates (target : Z) (m : MotorControl) (times : list Z) :
  wf m ->
  in_int target ->
  paced times ->
  let goal := constrain target (m_minStep m) (m_maxStep m) in
  (Z.abs_nat (goal - m_currentStep m) + 3 <= length times)%nat ->
  let m' := fst (run_updates times (fst (moveTo target m))) in
  m_currentStep m' = goal
  /\ m_motorActive m' = false
  /\ (forall currentTime, update currentTime m' = (m', []))
  /\ (forall more, run_updates more m' = (m', [])).
Proof.
  intros Hwf Htarget Hpaced goal Hlen m'.
  destruct (moveTo_on_course target m Hwf Htarget) as (Hcourse & Htgt & Hcur).
  fold goal in Htgt.
  assert (Hrest : m_currentStep m' = m_targetStep (fst (moveTo target m))
                  /\ m_motorActive m' = false).
  { destruct times as [|t times]; [cbn in Hlen; lia|].
    apply (run_updates_on_course (t :: times) (t - stepDelay)).
    - exact Hcourse.
    - split; [|exact Hpaced].
      replace (t - (t - stepDelay)) with stepDelay by lia. reflexivity.
    - rewrite Htgt, Hcur.
      pose proof (slack_le_2 (wrap_ulong (t - stepDelay
                    - m_lastStepTime (fst (moveTo target m))))).
      lia. }
  destruct Hrest as [Hpos Hoff]. rewrite Htgt in Hpos.
  repeat split; try assumption.
  - intros currentTime. apply update_idle. exact Hoff.
  - intros more. apply run_updates_idle. exact Hoff.
Qed.

(** ** [targetStep] stays within the limits *)

Lemma keeps_limits_same_target (m m' : MotorControl) :
  wf m ->
  in_int (m_currentStep m') ->
  m_minStep m' = m_minStep m ->
  m_maxStep m' = m_maxStep m ->
  m_targetStep m' = m_targetStep m ->
  keeps_limits m m'.
Proof.
  intros (Hcur & Htgt & Hmin & Hmax) Hcur' Emin Emax Etgt.
  unfold keeps_limits, wf. rewrite Emin, Emax, Etgt.
  split; [auto|]. split; [reflexivity|]. split; [reflexivity|].
  left. reflexivity.
Qed.

Lemma update_keeps_limits (t : Z) (m : MotorControl) :
  wf m -> keeps_limits m (fst (update t m)).
Proof.
  intros Hwf. pose proof Hwf as (Hcur & _).
  unfold update.
  destruct (m_motorActive m);
    [|apply keeps_limits_same_target; auto].
  destruct ((m_clockwise m && (m_currentStep m >=? m_targetStep m))
            || (negb (m_clockwise m) && (m_currentStep m <=? m_targetStep m)));
    [apply keeps_limits_same_target; auto|].
  destruct (wrap_ulong (t - m_lastStepTime m) >=? stepDelay);
    apply keeps_limits_same_target; auto.
  apply wrap_int_in_int.
Qed.

Lemma moveTo_keeps_limits (t : Z) (m : MotorControl) :
  wf m -> in_int t -> keeps_limits m (fst (moveTo t m)).
Proof.
  intros (Hcur & Htgt & Hmin & Hmax) Ht.
  pose proof (constrain_in_int t _ _ Ht Hmin Hmax) as Hgoal.
  unfold moveTo, keeps_limits, wf.
  cbn [m_currentStep m_targetStep with_targetStep].
  destruct (negb (m_currentStep m =? constrain t (m_minStep m) (m_maxStep m)));
    cbn; (split; [auto|]);
    (split; [reflexivity|]); (split; [reflexivity|]); right; exists t; reflexivity.
Qed.

Lemma enough_fuel_covers (fuel : nat) (a b : Z) :
  enough_fuel fuel -> in_int a -> in_int b -> (Z.abs_nat (a - b) <= fuel)%nat.
Proof.
  unfold enough_fuel, in_int, INT_MIN, INT_MAX. intros Hfuel Ha Hb.
  pose proof int_pow_half. pose proof int_half_pos. lia.
Qed.

Lemma moveToSync_keeps_limits (fuel : nat) (t : Z) (m : MotorControl) :
  wf m -> in_int t -> enough_fuel fuel ->
  exists m' tr, moveToSync fuel t m = Some (m', tr) /\ keeps_limits m m'.
Proof.
  intros Hwf Ht Hfuel. pose proof Hwf as (Hcur & Htgt & Hmin & Hmax).
  pose proof (constrain_in_int t _ _ Ht Hmin Hmax) as Hgoal.
  destruct (moveToSync_returns t m fuel Hwf Ht)
    as (m' & tr & Hrun & _ & Emin & Emax & _ & Etgt & Hbetween & _);
    [apply enough_fuel_covers; assumption|].
  exists m', tr. split; [exact Hrun|].
  unfold keeps_limits, wf. rewrite Emin, Emax, Etgt.
  split.
  - split; [unfold in_int in *; lia|]. auto.
  - split; [reflexivity|]. split; [reflexivity|]. right. exists t. reflexivity.
Qed.

Lemma some_pair {A B : Type} (p : A * B) : Some p = Some (fst p, snd p).
Proof. destruct p; reflexivity. Qed.

Lemma run_op_keeps_limits (fuel : nat) (op : Op) (m : MotorControl) :
  wf m -> op_wf op -> enough_fuel fuel ->
  exists m' tr, run_op fuel op m = Some (m', tr) /\ keeps_limits m m'.
Proof.
  intros Hwf Hop Hfuel. pose proof Hwf as (Hcur & _).
  destruct op as [t|d| | |t|t|f|z|z]; cbn [run_op op_wf] in *;
    try (eexists; eexists; split; [apply some_pair|]; cbn [fst]).
  - apply update_keeps_limits; assumption.
  - apply keeps_limits_same_target; auto.
  - apply keeps_limits_same_target; auto.
  - apply keeps_limits_same_target; auto. apply wrap_int_in_int.
  - apply moveTo_keeps_limits; assumption.
  - apply moveToSync_keeps_limits; assumption.
  - apply keeps_limits_same_target; auto.
  - apply keeps_limits_same_target; auto.
  - apply keeps_limits_same_target; auto.
Qed.

Lemma keeps_limits_in_bounds (m m' : MotorControl) :
  keeps_limits m m' -> in_bounds m -> in_bounds m'.
Proof.
  unfold in_bounds. intros (_ & Emin & Emax & [Etgt | [t Etgt]]) Hin;
    rewrite Emin, Emax, Etgt; [exact Hin|].
  apply constrain_bounds. lia.
Qed.

Lemma run_ops_in_bounds (fuel : nat) (ops : list Op) :
  forall m : MotorControl,
    wf m -> Forall op_wf ops -> enough_fuel fuel -> in_bounds m ->
    exists m' tr,
      run_ops fuel ops m = Some (m', tr)
      /\ in_bounds m'
      /\ m_minStep m' = m_minStep m /\ m_maxStep m' = m_maxStep m.
Proof.
  induction ops as [|op ops IH]; intros m Hwf Hops Hfuel Hin.
  - exists m, []. split; [reflexivity|]. split; [exact Hin|]. split; reflexivity.
  - inversion Hops as [|? ? Hop Hops']; subst.
    destruct (run_op_keeps_limits fuel op m Hwf Hop Hfuel) as (m1 & tr1 & Hrun & Hkeep).
    pose proof (keeps_limits_in_bounds m m1 Hkeep Hin) as Hin1.
    destruct Hkeep as (Hwf1 & Emin & Emax & _).
    destruct (IH m1 Hwf1 Hops' Hfuel Hin1) as (m2 & tr2 & Hrun2 & Hin2 & Emin2 & Emax2).
    exists m2, (tr1 ++ tr2). cbn [run_ops]. rewrite Hrun, Hrun2.
    split; [reflexivity|]. split; [exact Hin2|]. split; congruence.
Qed.

(** The value a move request stores in [targetStep]. *)
Lemma move_request_target
  (fuel : nat) (target : Z) (m m1 : MotorControl) (tr1 : trace) (request : Op) :
  wf m -> in_int target -> enough_fuel fuel ->
  In request [OpMoveTo target; OpMoveToSync target] ->
  run_op fuel request m = Some (m1, tr1) ->
  m_targetStep m1 = constrain target (m_minStep m) (m_maxStep m).
Proof.
  intros Hwf Htarget Hfuel Hreq Hrun.
  destruct Hreq as [<-|[<-|[]]]; cbn [run_op] in Hrun.
  - injection Hrun as E.
    replace m1 with (fst (moveTo target m)) by (rewrite E; reflexivity).
    apply (moveTo_on_course target m Hwf Htarget).
  - pose proof Hwf as (Hcur & _ & Hmin & Hmax).
    destruct (moveToSync_returns target m fuel Hwf Htarget)
      as (m' & tr & Hrun' & _ & _ & _ & _ & Etgt & _).
    + apply enough_fuel_covers; try assumption.
      apply constrain_in_int; assumption.
    + rewrite Hrun' in Hrun. injection Hrun as <- _. exact Etgt.
Qed.

(** C6: with [minStep <= maxStep], a move request, polled or blocking,
    leaves [targetStep] within the limits, and so does every sequence of
    public operations after it (each of which returns, limits unchanged);
    a request 5 below [minStep] stores [minStep], one 5 above [maxStep]
    stores [maxStep]. *)
Theorem targetStep_within_limits
  (target : Z) (m : MotorControl) (ops : list Op) (fuel : nat) :
  wf m ->
  in_int target ->
  Forall op_wf ops ->
  enough_fuel fuel ->
  m_minStep m <= m_maxStep m ->
  (forall request, In request [OpMoveTo target; OpMoveToSync target] ->
     exists m1 tr1,
       run_op fuel request m = Some (m1, tr1)
       /\ in_bounds m1
       /\ exists m2 tr2,
            run_ops fuel ops m1 = Some (m2, tr2)
            /\ in_bounds m2
            /\ m_minStep m2 = m_minStep m /\ m_maxStep m2 = m_maxStep m)
  /\ m_targetStep (fst (moveTo (m_minStep m - 5) m)) = m_minStep m
  /\ m_targetStep (fst (moveTo (m_maxStep m + 5) m)) = m_maxStep m.
Proof.
  intros Hwf Htarget Hops Hfuel Hlim. split; [|split].
  - intros request Hreq.
    assert (Hreq_wf : op_wf request)
      by (destruct Hreq as [<-|[<-|[]]]; exact Htarget).
    destruct (run_op_keeps_limits fuel request m Hwf Hreq_wf Hfuel)
      as (m1 & tr1 & Hrun & Hkeep).
    pose proof (move_request_target fuel target m m1 tr1 request
                  Hwf Htarget Hfuel Hreq Hrun) as Etgt.
    destruct Hkeep as (Hwf1 & Emin & Emax & _).
    assert (Hin1 : in_bounds m1).
    { unfold in_bounds. rewrite Emin, Emax, Etgt. apply constrain_bounds. exact Hlim. }
    exists m1, tr1. split; [exact Hrun|]. split; [exact Hin1|].
    destruct (run_ops_in_bounds fuel ops m1 Hwf1 Hops Hfuel Hin1)
      as (m2 & tr2 & Hrun2 & Hin2 & Emin2 & Emax2).
    exists m2, tr2. split; [exact Hrun2|]. split; [exact Hin2|]. split; congruence.
  - unfold moveTo. cbn [m_currentStep m_targetStep with_targetStep].
    assert (E : constrain (m_minStep m - 5) (m_minStep m) (m_maxStep m) = m_minStep m).
    { unfold constrain. destruct (Z.ltb_spec (m_minStep m - 5) (m_minStep m)); lia. }
    rewrite E. destruct (negb (m_currentStep m =? m_minStep m)); reflexivity.
  - unfold moveTo. cbn [m_currentStep m_targetStep with_targetStep].
    assert (E : constrain (m_maxStep m + 5) (m_minStep m) (m_maxStep m) = m_maxStep m).
    { unfold constrain. destruct (Z.ltb_spec (m_maxStep m + 5) (m_minStep m)); [lia|].
      rewrite Z.gtb_ltb. destruct (Z.ltb_spec (m_maxStep m) (m_maxStep m + 5)); lia. }
    rewrite E. destruct (negb (m_currentStep m =? m_maxStep m)); reflexivity.
Qed.

(** ** Who writes [lastPosition] *)

Lemma activateMotor_transition (d : bool) (m : MotorControl) :
  existsb isPinMode (snd (activateMotor d m)) = true
  /\ m_lastPosition (fst (activateMotor d m)) = m_currentStep (fst (activateMotor d m)).
Proof. split; reflexivity. Qed.

Lemma deactivateMotor_transition (m : MotorControl) :
  existsb isPinMode (snd (deactivateMotor m)) = true
  /\ m_lastPosition (fst (deactivateMotor m)) = m_currentStep (fst (deactivateMotor m)).
Proof. split; reflexivity. Qed.

(** C9 (as amended): [activateMotor] and [deactivateMotor] store the
    current position in [lastPosition]; [stepMotor] changes no member but
    [currentStep]; the setter [setLastPosition] stores its argument; and
    every other public operation leaves [lastPosition] as it was unless it
    goes through an activation or a deactivation. *)
Theorem lastPosition_writers (fuel : nat) (op : Op) (m : MotorControl) :
  (forall z, op <> OpSetLastPosition z) ->
  lastPosition_only_at_transitions fuel op m
  /\ (forall d, m_lastPosition (fst (activateMotor d m)) = m_currentStep m)
  /\ m_lastPosition (fst (deactivateMotor m)) = m_currentStep m
  /\ (forall z, m_lastPosition (setLastPosition z m) = z)
  /\ m_lastPosition (fst (stepMotor m)) = m_lastPosition m
  /\ m_targetStep (fst (stepMotor m)) = m_targetStep m
  /\ m_clockwise (fst (stepMotor m)) = m_clockwise m
  /\ m_motorActive (fst (stepMotor m)) = m_motorActive m
  /\ m_minStep (fst (stepMotor m)) = m_minStep m
  /\ m_maxStep (fst (stepMotor m)) = m_maxStep m.
Proof.
  intros Hop. split; [|repeat split].
  unfold lastPosition_only_at_transitions. intros m' tr Hrun.
  destruct op as [t|d| | |t|t|f|z|z]; cbn [run_op] in Hrun.
  - injection Hrun as Hrun. unfold update in Hrun.
    destruct (m_motorActive m);
      [|injection Hrun as <- _; left; reflexivity].
    destruct ((m_clockwise m && (m_currentStep m >=? m_targetStep m))
              || (negb (m_clockwise m) && (m_currentStep m <=? m_targetStep m))).
    + injection Hrun as <- <-. right. apply deactivateMotor_transition.
    + destruct (wrap_ulong (t - m_lastStepTime m) >=? stepDelay);
        injection Hrun as <- _; left; reflexivity.
  - injection Hrun as <- <-. right. apply activateMotor_transition.
  - injection Hrun as <- <-. right. apply deactivateMotor_transition.
  - injection Hrun as <- _. left. reflexivity.
  - injection Hrun as Hrun. unfold moveTo in Hrun.
    destruct (negb (m_currentStep (with_targetStep _ m) =? m_targetStep (with_targetStep _ m))).
    + injection Hrun as <- <-. right. split; reflexivity.
    + injection Hrun as <- _. left. reflexivity.
  - unfold moveToSync in Hrun.
    destruct (m_currentStep (with_targetStep _ m) =? m_targetStep (with_targetStep _ m)).
    + injection Hrun as <- _. left. reflexivity.
    + rewrite (surjective_pairing (activateMotor _ _)) in Hrun.
      destruct (moveToSync_loop fuel _) as [[m3 tr2]|]; [|discriminate].
      injection Hrun as <- <-. right. split; reflexivity.
  - injection Hrun as <- _. left. reflexivity.
  - injection Hrun as <- _. left. reflexivity.
  - exfalso. apply (Hop z). reflexivity.
Qed.

(** * Further properties *)

(** ** [update] and the target *)

(** What [update] can do to the position: nothing, or one step towards a
    target that lies ahead in the direction of travel. *)
Lemma update_position_cases (t : Z) (m : MotorControl) :
  in_int (m_currentStep m) ->
  in_int (m_targetStep m) ->
  m_currentStep (fst (update t m)) = m_currentStep m
  \/ (m_clockwise m = true /\ m_currentStep m < m_targetStep m
      /\ m_currentStep (fst (update t m)) = m_currentStep m + 1)
  \/ (m_clockwise m = false /\ m_targetStep m < m_currentStep m
      /\ m_currentStep (fst (update t m)) = m_currentStep m - 1).
Proof.
  intros Hcur Htgt. unfold update.
  destruct (m_motorActive m); [|left; reflexivity].
  rewrite Z.geb_leb.
  destruct (m_clockwise m) eqn:Hcw; cbn [andb orb negb].
  - destruct (Z.leb_spec (m_targetStep m) (m_currentStep m)); [left; reflexivity|].
    destruct (wrap_ulong (t - m_lastStepTime m) >=? stepDelay); [|left; reflexivity].
    right. left. split; [reflexivity|]. split; [assumption|].
    rewrite (surjective_pairing (stepMotor m)). cbn [fst].
    rewrite stepMotor_exact; rewrite Hcw; cbn [step_dir]; [reflexivity|].
    unfold in_int in *. lia.
  - destruct (Z.leb_spec (m_currentStep m) (m_targetStep m)); [left; reflexivity|].
    destruct (wrap_ulong (t - m_lastStepTime m) >=? stepDelay); [|left; reflexivity].
    right. right. split; [reflexivity|]. split; [assumption|].
    rewrite (surjective_pairing (stepMotor m)). cbn [fst].
    rewrite stepMotor_exact; rewrite Hcw; cbn [step_dir]; [reflexivity|].
    unfold in_int in *. lia.
Qed.


(** X1: whatever the state, an [update] call moves the position by at most
    one step and never away from the target: with the direction flag
    pointing away from the target it does not step at all. *)
Theorem update_never_leaves_target (t : Z) (m : MotorControl) :
  in_int (m_currentStep m) ->
  in_int (m_targetStep m) ->
  Z.abs (m_targetStep m - m_currentStep (fst (update t m)))
  <= Z.abs (m_targetStep m - m_currentStep m)
  /\ Z.abs (m_currentStep (fst (update t m)) - m_currentStep m) <= 1
  /\ ((if m_clockwise m then m_targetStep m <= m_currentStep m
       else m_currentStep m <= m_targetStep m) ->
      m_currentStep (fst (update t m)) = m_currentStep m).
Proof.
  intros Hcur Htgt.
  destruct (update_position_cases t m Hcur Htgt)
    as [E | [(Hcw & Hfar & E) | (Hcw & Hfar & E)]]; rewrite E.
  - split; [lia|]. split; [lia|]. reflexivity.
  - rewrite Hcw. split; [lia|]. split; [lia|]. lia.
  - rewrite Hcw. split; [lia|]. split; [lia|]. lia.
Qed.

(** ** The position and the limits *)



(** ** The activation flag and the pins *)

Lemma drive_state_app (tr1 tr2 : trace) (driven : bool) :
  drive_state (tr1 ++ tr2) driven = drive_state tr2 (drive_state tr1 driven).
Proof.
  revert driven. induction tr1 as [|e tr1 IH]; intros driven; [reflexivity|].
  destruct e as [pin [|]| | |]; cbn [app drive_state]; apply IH.
Qed.

Lemma drive_state_stepMotor (m : MotorControl) (driven : bool) :
  drive_state (snd (stepMotor m)) driven = driven.
Proof. reflexivity. Qed.

Lemma run_calls_drive (calls : list CallbackCall) :
  forall m : MotorControl,
    m_motorActive (fst (run_calls calls m))
    = drive_state (snd (run_calls calls m)) (m_motorActive m).
Proof.
  induction calls as [|c calls IH]; intros m; [reflexivity|].
  cbn [run_calls].
  assert (Hone : m_motorActive (fst (run_call c m))
                 = drive_state (snd (run_call c m)) (m_motorActive m))
    by (destruct c; reflexivity).
  destruct (run_call c m) as [m1 tr1]. cbn [fst snd] in Hone.
  specialize (IH m1).
  destruct (run_calls calls m1) as [m2 tr2]. cbn [fst snd] in *.
  rewrite drive_state_app, <- Hone. exact IH.
Qed.

Lemma callStepCallback_drive (m : MotorControl) :
  m_motorActive (fst (callStepCallback m))
  = drive_state (snd (callStepCallback m)) (m_motorActive m).
Proof.
  unfold callStepCallback. destruct (m_stepCallback m) as [f|]; [|reflexivity].
  pose proof (run_calls_drive (callback_body f m) m) as Hcalls.
  destruct (run_calls (callback_body f m) m). exact Hcalls.
Qed.

(** In the loop of [moveToSync] the flag changes only with a [pinMode]
    call, made by the callback through [deactivateMotor]. *)
Lemma moveToSync_loop_drive (fuel : nat) :
  forall (m m' : MotorControl) (tr : trace),
    moveToSync_loop fuel m = Some (m', tr) ->
    m_motorActive m' = drive_state tr (m_motorActive m).
Proof.
  induction fuel as [|fuel IH]; intros m m' tr Hrun;
    destruct (moveToSync_loop_inv _ _ _ _ Hrun)
      as [(-> & -> & _) | (fuel' & tr' & Efuel & Hact & Hne & Hloop & ->)];
    try reflexivity; try discriminate.
  injection Efuel as <-.
  rewrite (IH _ _ _ Hloop), !drive_state_app, drive_state_stepMotor.
  cbn [drive_state]. rewrite (callStepCallback_drive (fst (stepMotor m))).
  reflexivity.
Qed.

Lemma run_op_drive_state
  (fuel : nat) (op : Op) (m m' : MotorControl) (tr : trace) :
  run_op fuel op m = Some (m', tr) ->
  m_motorActive m' = drive_state tr (m_motorActive m).
Proof.
  intros Hrun.
  destruct op as [t|d| | |t|t|f|z|z]; cbn [run_op] in Hrun.
  - injection Hrun as Hrun. unfold update in Hrun.
    destruct (m_motorActive m) eqn:Hact;
      [|injection Hrun as <- <-; exact Hact].
    destruct ((m_clockwise m && (m_currentStep m >=? m_targetStep m))
              || (negb (m_clockwise m) && (m_currentStep m <=? m_targetStep m))).
    + injection Hrun as <- <-. reflexivity.
    + destruct (wrap_ulong (t - m_lastStepTime m) >=? stepDelay);
        injection Hrun as <- <-; exact Hact.
  - injection Hrun as <- <-. reflexivity.
  - injection Hrun as <- <-. reflexivity.
  - injection Hrun as <- <-. reflexivity.
  - injection Hrun as Hrun. unfold moveTo in Hrun.
    destruct (negb (m_currentStep (with_targetStep _ m) =? m_targetStep (with_targetStep _ m)));
      injection Hrun as <- <-; reflexivity.
  - unfold moveToSync in Hrun.
    destruct (m_currentStep (with_targetStep _ m) =? m_targetStep (with_targetStep _ m)).
    + injection Hrun as <- <-. reflexivity.
    + rewrite (surjective_pairing (activateMotor _ _)) in Hrun.
      destruct (moveToSync_loop fuel _) as [[m3 tr2]|] eqn:Hloop; [|discriminate].
      remember (snd (activateMotor
                       (m_targetStep (with_targetStep _ m)
                        >? m_currentStep (with_targetStep _ m))
                       (with_targetStep _ m))) as tr1.
      injection Hrun as <- <-.
      rewrite !drive_state_app. reflexivity.
  - injection Hrun as <- <-. reflexivity.
  - injection Hrun as <- <-. reflexivity.
  - injection Hrun as <- <-. reflexivity.
Qed.

(** X3: after any sequence of public operations (each of which returns),
    [m_motorActive] says what the [pinMode] calls made so far have done to
    the pins: true when the last of them set a pin to [OUTPUT], false when
    it set one to [INPUT], unchanged when there was none. *)
Theorem motorActive_mirrors_pinMode
  (fuel : nat) (ops : list Op) (m : MotorControl) :
  wf m ->
  Forall op_wf ops ->
  enough_fuel fuel ->
  exists m' tr,
    run_ops fuel ops m = Some (m', tr)
    /\ m_motorActive m' = drive_state tr (m_motorActive m).
Proof.
  revert m. induction ops as [|op ops IH]; intros m Hwf Hops Hfuel.
  - exists m, []. split; reflexivity.
  - inversion Hops as [|? ? Hop Hops']; subst.
    destruct (run_op_keeps_limits fuel op m Hwf Hop Hfuel)
      as (m1 & tr1 & Hrun & (Hwf1 & _)).
    destruct (IH m1 Hwf1 Hops' Hfuel) as (m2 & tr2 & Hrun2 & Hact2).
    exists m2, (tr1 ++ tr2). cbn [run_ops]. rewrite Hrun, Hrun2.
    split; [reflexivity|].
    rewrite drive_state_app, <- (run_op_drive_state fuel op m m1 tr1 Hrun).
    exact Hact2.
Qed.

(** ** The step callback *)

Lemma callbacks_stepMotor (m : MotorControl) : callbacks (snd (stepMotor m)) = [].
Proof. reflexivity. Qed.

Lemma callbacks_update (t : Z) (m : MotorControl) : callbacks (snd (update t m)) = [].
Proof.
  unfold update. destruct (m_motorActive m); [|reflexivity].
  destruct ((m_clockwise m && (m_currentStep m >=? m_targetStep m))
            || (negb (m_clockwise m) && (m_currentStep m <=? m_targetStep m)));
    [reflexivity|].
  destruct (wrap_ulong (t - m_lastStepTime m) >=? stepDelay); reflexivity.
Qed.

Lemma callbacks_moveTo (t : Z) (m : MotorControl) : callbacks (snd (moveTo t m)) = [].
Proof.
  unfold moveTo.
  destruct (negb (m_currentStep (with_targetStep _ m) =? m_targetStep (with_targetStep _ m)));
    reflexivity.
Qed.

(** X4: the step callback is called by [moveToSync] only.  A sequence of
    the other operations, a polled move from [moveTo] through any number
    of [update] calls included, returns without a single callback
    invocation, whether or not a callback is registered. *)
Theorem polled_operations_never_call_back
  (fuel : nat) (ops : list Op) (m : MotorControl) :
  Forall polled ops ->
  exists m' tr, run_ops fuel ops m = Some (m', tr) /\ callbacks tr = [].
Proof.
  revert m. induction ops as [|op ops IH]; intros m Hops.
  - exists m, []. split; reflexivity.
  - inversion Hops as [|? ? Hop Hops']; subst.
    assert (Hone : exists m1 tr1,
               run_op fuel op m = Some (m1, tr1) /\ callbacks tr1 = []).
    { destruct op as [t|d| | |t|t|f|z|z]; cbn [run_op polled] in *;
        try contradiction;
        (eexists; eexists; split; [apply some_pair|]; cbn [snd]).
      - apply callbacks_update.
      - reflexivity.
      - reflexivity.
      - reflexivity.
      - apply callbacks_moveTo.
      - reflexivity.
      - reflexivity.
      - reflexivity. }
    destruct Hone as (m1 & tr1 & Hrun & Hcb1).
    destruct (IH m1 Hops') as (m2 & tr2 & Hrun2 & Hcb2).
    exists m2, (tr1 ++ tr2). cbn [run_ops]. rewrite Hrun, Hrun2.
    split; [reflexivity|]. rewrite callbacks_app, Hcb1, Hcb2. reflexivity.
Qed.

(** ** The polled move and the blocking move *)

Lemma snd_run_updates_cons (t : Z) (times : list Z) (m : MotorControl) :
  snd (run_updates (t :: times) m)
  = snd (update t m) ++ snd (run_updates times (fst (update t m))).
Proof.
  cbn [run_updates]. destruct (update t m) as [m1 tr1]. cbn [fst snd].
  destruct (run_updates times m1). reflexivity.
Qed.

Lemma abs_nat_step (cs tgt d : Z) :
  (d = 1 \/ d = -1) ->
  0 < d * (tgt - cs) ->
  Z.abs_nat (tgt - cs) = S (Z.abs_nat (tgt - (cs + d))).
Proof. intros [-> | ->] Hfar; lia. Qed.

(** The pin calls and the final state of polling an active driver that
    heads for its target: the steps, one per position on the way, then the
    deactivation. *)
Lemma run_updates_travel (times : list Z) :
  forall (prev : Z) (m : MotorControl),
    m_motorActive m = true ->
    in_int (m_currentStep m) ->
    in_int (m_targetStep m) ->
    (if m_clockwise m then m_currentStep m <= m_targetStep m
     else m_targetStep m <= m_currentStep m) ->
    paced_from prev times ->
    (Z.abs_nat (m_targetStep m - m_currentStep m)
     + slack (wrap_ulong (prev - m_lastStepTime m)) + 1 <= length times)%nat ->
    snd (run_updates times m)
    = flat_map (fun k => snd (stepMotor (with_currentStep
                  (m_currentStep m + step_dir (m_clockwise m) * Z.of_nat k) m)))
               (seq 0 (Z.abs_nat (m_targetStep m - m_currentStep m)))
      ++ snd (deactivateMotor m)
    /\ with_lastStepTime (m_lastStepTime m) (fst (run_updates times m))
       = with_lastPosition (m_targetStep m)
           (with_motorActive false (with_currentStep (m_targetStep m) m)).
Proof.
  induction times as [|t times IH]; intros prev m Hact Hcur Htgt Hdir Hpaced Hlen;
    [cbn in Hlen; lia|].
  destruct Hpaced as [Hgap Hpaced]. cbn [length] in Hlen.
  rewrite snd_run_updates_cons, fst_run_updates_cons, (update_cases t m Hact).
  pose proof (reached_on_course m Hdir) as Hreached.
  destruct (reached m).
  - rewrite run_updates_idle by reflexivity. cbn [fst snd].
    rewrite <- Hreached, Z.sub_diag, app_nil_r. cbn [Z.abs_nat seq flat_map app].
    split; [reflexivity|]. destruct m; reflexivity.
  - assert (Hsign : step_dir (m_clockwise m) = 1 \/ step_dir (m_clockwise m) = -1)
      by (destruct (m_clockwise m); cbn; lia).
    destruct (Z.leb_spec stepDelay (wrap_ulong (t - m_lastStepTime m)))
      as [Hdue|Hearly]; cbn [fst snd].
    + assert (Hin : in_int (m_currentStep m + step_dir (m_clockwise m)))
        by (unfold in_int in *; nia).
      rewrite (stepMotor_exact m Hin).
      set (m1 := with_lastStepTime t
                   (with_currentStep (m_currentStep m + step_dir (m_clockwise m)) m)).
      destruct (IH t m1) as [Htr Hst].
      * exact Hact.
      * exact Hin.
      * exact Htgt.
      * subst m1. cbn [m_currentStep m_targetStep m_clockwise
                       with_currentStep with_lastStepTime].
        destruct (m_clockwise m); cbn [step_dir] in *; lia.
      * exact Hpaced.
      * subst m1. cbn [m_currentStep m_targetStep m_lastStepTime
                       with_currentStep with_lastStepTime].
        rewrite Z.sub_diag. change (slack (wrap_ulong 0)) with 0%nat.
        rewrite (abs_nat_step _ _ _ Hsign Hreached) in Hlen. lia.
      * split.
        -- rewrite Htr. rewrite (abs_nat_step _ _ _ Hsign Hreached).
           cbn [seq flat_map].
           rewrite Z.mul_0_r, Z.add_0_r, with_currentStep_same, <- app_assoc.
           f_equal. f_equal.
           rewrite <- seq_shift, flat_map_after_map.
           apply flat_map_ext. intros k. subst m1.
           cbn [m_currentStep m_clockwise with_currentStep with_lastStepTime].
           replace (m_currentStep m + step_dir (m_clockwise m)
                    + step_dir (m_clockwise m) * Z.of_nat k)
             with (m_currentStep m + step_dir (m_clockwise m) * Z.of_nat (S k)) by lia.
           reflexivity.
        -- apply (f_equal (with_lastStepTime (m_lastStepTime m))) in Hst.
           exact Hst.
    + pose proof (slack_decreases prev t (m_lastStepTime m) Hgap Hearly).
      apply (IH t m); try assumption. lia.
Qed.

Lemma filter_flat_map {A B : Type} (p : B -> bool) (f : A -> list B) (l : list A) :
  filter p (flat_map f l) = flat_map (fun a => filter p (f a)) l.
Proof.
  induction l as [|a l IH]; cbn [flat_map]; [reflexivity|].
  rewrite filter_app, IH. reflexivity.
Qed.

Lemma filter_pin_calls_iteration (m : MotorControl) (pos : Z) :
  filter isPinCall (sync_iteration m pos) = snd (stepMotor (with_currentStep pos m)).
Proof.
  unfold sync_iteration. rewrite !filter_app.
  unfold stepCallbackEvent. cbn [m_stepCallback with_currentStep].
  destruct (m_stepCallback m); cbn; reflexivity.
Qed.

(** X5: when the registered callback makes no call into the driver (or
    none is registered), a polled move ([moveTo], then enough paced
    [update] calls) and the blocking move to the same target make the same
    pin calls in the same order (the blocking one adds only its delays and
    callbacks), and they end in the same state except for
    [m_lastStepTime], which only [update] records. *)
Theorem polled_move_matches_blocking
  (target : Z) (m : MotorControl) (times : list Z) (fuel : nat) :
  wf m ->
  in_int target ->
  quiet_callback m ->
  let goal := constrain target (m_minStep m) (m_maxStep m) in
  let n := Z.abs_nat (goal - m_currentStep m) in
  m_currentStep m <> goal ->
  paced times ->
  (n + 3 <= length times)%nat ->
  (n <= fuel)%nat ->
  exists ms trs,
    moveToSync fuel target m = Some (ms, trs)
    /\ with_lastStepTime (m_lastStepTime m)
         (fst (run_updates times (fst (moveTo target m)))) = ms
    /\ snd (moveTo target m) ++ snd (run_updates times (fst (moveTo target m)))
       = filter isPinCall trs.
Proof.
  intros Hwf Htarget Hquiet goal n Hne Hpaced Hlen Hfuel.
  pose proof Hwf as (Hcur & _ & Hmin & Hmax).
  pose proof (constrain_in_int target _ _ Htarget Hmin Hmax) as Hgoal.
  fold goal in Hgoal.
  rewrite (moveToSync_travel target m fuel Hwf Htarget Hquiet Hne Hfuel).
  fold goal n. eexists. eexists. split; [reflexivity|].
  set (cw := goal >? m_currentStep m).
  assert (Hmove : moveTo target m = activateMotor cw (with_targetStep goal m)).
  { unfold moveTo. fold goal. cbn [m_currentStep m_targetStep with_targetStep].
    destruct (Z.eqb_spec (m_currentStep m) goal); [contradiction|]. reflexivity. }
  rewrite Hmove.
  set (m1 := fst (activateMotor cw (with_targetStep goal m))).
  assert (Hdir : if m_clockwise m1 then m_currentStep m1 <= m_targetStep m1
                 else m_targetStep m1 <= m_currentStep m1).
  { subst m1 cw. cbn. rewrite Z.gtb_ltb.
    destruct (Z.ltb_spec (m_currentStep m) goal); lia. }
  destruct times as [|t times]; [cbn in Hlen; lia|].
  destruct (run_updates_travel (t :: times) (t - stepDelay) m1) as [Htr Hst];
    try assumption; try reflexivity.
  - split; [|exact Hpaced].
    replace (t - (t - stepDelay)) with stepDelay by lia. reflexivity.
  - change (m_targetStep m1) with goal. change (m_currentStep m1) with (m_currentStep m).
    fold n.
    pose proof (slack_le_2 (wrap_ulong (t - stepDelay - m_lastStepTime m1))). lia.
  - change (m_targetStep m1) with goal in *.
    change (m_currentStep m1) with (m_currentStep m) in *.
    change (m_clockwise m1) with cw in *.
    change (m_lastStepTime m1) with (m_lastStepTime m) in *.
    fold n in Htr. split.
    + rewrite Hst. reflexivity.
    + rewrite Htr, !filter_app, filter_flat_map.
      f_equal. f_equal. apply flat_map_ext. intros k.
      rewrite filter_pin_calls_iteration. reflexivity.
Qed.

(** ** How long the blocking move blocks *)

Lemma total_delay_app (tr1 tr2 : trace) :
  total_delay (tr1 ++ tr2) = total_delay tr1 + total_delay tr2.
Proof.
  induction tr1 as [|e tr1 IH]; [reflexivity|].
  destruct e; cbn [app total_delay fold_right] in *; fold (total_delay (tr1 ++ tr2));
    fold (total_delay tr1); lia.
Qed.

Lemma total_delay_run_calls (calls : list CallbackCall) :
  forall m : MotorControl, total_delay (snd (run_calls calls m)) = 0.
Proof.
  induction calls as [|c calls IH]; intros m; [reflexivity|].
  cbn [run_calls].
  assert (Hone : total_delay (snd (run_call c m)) = 0) by (destruct c; reflexivity).
  destruct (run_call c m) as [m1 tr1]. cbn [snd] in Hone.
  specialize (IH m1). destruct (run_calls calls m1) as [m2 tr2]. cbn [snd] in *.
  rewrite total_delay_app. lia.
Qed.

Lemma total_delay_callStepCallback (m : MotorControl) :
  total_delay (snd (callStepCallback m)) = 0.
Proof.
  unfold callStepCallback. destruct (m_stepCallback m) as [f|]; [|reflexivity].
  pose proof (total_delay_run_calls (callback_body f m) m) as Hcalls.
  destruct (run_calls (callback_body f m) m). exact Hcalls.
Qed.

(** One [delay(stepDelay)] per step the loop takes. *)
Lemma moveToSync_loop_delay (fuel : nat) :
  forall (m m' : MotorControl) (tr : trace),
    moveToSync_loop fuel m = Some (m', tr) ->
    in_int (m_currentStep m) ->
    in_int (m_targetStep m) ->
    (if m_clockwise m then m_currentStep m <= m_targetStep m
     else m_targetStep m <= m_currentStep m) ->
    total_delay tr
    = stepDelay * (step_dir (m_clockwise m) * (m_currentStep m' - m_currentStep m)).
Proof.
  induction fuel as [|fuel IH]; intros m m' tr Hrun Hcur Htgt Hdir;
    destruct (moveToSync_loop_inv _ _ _ _ Hrun)
      as [(-> & -> & _) | (fuel' & tr' & Efuel & Hact & Hne & Hloop & ->)];
    try (rewrite Z.sub_diag, Z.mul_0_r; reflexivity); try discriminate.
  injection Efuel as <-.
  assert (Hin : in_int (m_currentStep m + step_dir (m_clockwise m)))
    by (unfold in_int in *; destruct (m_clockwise m); cbn [step_dir]; lia).
  rewrite (stepMotor_exact m Hin) in Hloop.
  set (m1 := with_currentStep (m_currentStep m + step_dir (m_clockwise m)) m) in *.
  destruct (callStepCallback_frame m1) as [Hframe Hpos].
  destruct Hframe as (_ & _ & _ & Etgt & _ & Ecw).
  subst m1. cbn [m_targetStep m_currentStep m_clockwise with_currentStep] in *.
  rewrite !total_delay_app, total_delay_callStepCallback.
  rewrite (IH _ _ _ Hloop); rewrite ?Hpos, ?Etgt, ?Ecw; try assumption.
  - change (total_delay (snd (stepMotor m))) with 0.
    change (total_delay [EvDelay stepDelay]) with (stepDelay + 0).
    destruct (m_clockwise m); cbn [step_dir]; lia.
  - destruct (m_clockwise m); cbn [step_dir] in *; lia.
Qed.

Lemma moveToSync_delay
  (fuel : nat) (target : Z) (m m' : MotorControl) (tr : trace) :
  wf m ->
  in_int target ->
  moveToSync fuel target m = Some (m', tr) ->
  let goal := constrain target (m_minStep m) (m_maxStep m) in
  total_delay tr
  = stepDelay * (step_dir (goal >? m_currentStep m)
                 * (m_currentStep m' - m_currentStep m)).
Proof.
  intros (Hcur & _ & Hmin & Hmax) Htarget Hrun goal.
  pose proof (constrain_in_int target _ _ Htarget Hmin Hmax) as Hgoal.
  fold goal in Hgoal.
  unfold moveToSync in Hrun. fold goal in Hrun.
  cbn [m_currentStep m_targetStep with_targetStep] in Hrun.
  destruct (Z.eqb_spec (m_currentStep m) goal) as [Heq|Hne].
  - injection Hrun as <- <-. cbn [m_currentStep with_targetStep].
    rewrite Z.sub_diag, Z.mul_0_r. reflexivity.
  - set (cw := goal >? m_currentStep m) in *.
    set (m2 := fst (activateMotor cw (with_targetStep goal m))) in *.
    change (activateMotor cw (with_targetStep goal m))
      with (m2, snd (activateMotor cw m)) in Hrun.
    cbv iota beta in Hrun.
    destruct (moveToSync_loop fuel m2) as [[m3 tr2]|] eqn:Hloop; [|discriminate].
    rewrite (surjective_pairing (deactivateMotor m3)) in Hrun.
    assert (Em : m' = fst (deactivateMotor m3)) by congruence.
    assert (Etr : tr = snd (activateMotor cw m) ++ tr2 ++ snd (deactivateMotor m3))
      by congruence.
    rewrite Em, Etr, !total_delay_app.
    change (total_delay (snd (activateMotor cw m))) with 0.
    change (total_delay (snd (deactivateMotor m3))) with 0.
    rewrite (moveToSync_loop_delay _ _ _ _ Hloop Hcur Hgoal).
    + cbn. lia.
    + subst m2 cw. cbn. rewrite Z.gtb_ltb.
      destruct (Z.ltb_spec (m_currentStep m) goal); lia.
Qed.

(** X6: the blocking move spends [stepDelay] milliseconds in [delay] per
    step it takes, [stepDelay * |currentStep' - currentStep|] in all,
    whatever the callback does; with a callback that makes no call into
    the driver (or none registered) that is
    [stepDelay * |goal - currentStep|], and none when the driver is
    already at the clamped target. *)
Theorem moveToSync_total_delay (target : Z) (m : MotorControl) (fuel : nat) :
  wf m ->
  in_int target ->
  let goal := constrain target (m_minStep m) (m_maxStep m) in
  (Z.abs_nat (goal - m_currentStep m) <= fuel)%nat ->
  exists ms trs,
    moveToSync fuel target m = Some (ms, trs)
    /\ total_delay trs
       = stepDelay * Z.abs (m_currentStep ms - m_currentStep m)
    /\ (quiet_callback m ->
        total_delay trs = stepDelay * Z.abs (goal - m_currentStep m)).
Proof.
  intros Hwf Htarget goal Hfuel.
  destruct (moveToSync_returns target m fuel Hwf Htarget Hfuel)
    as (ms & trs & Hrun & _ & _ & _ & _ & _ & Hbetween & _).
  fold goal in Hbetween.
  pose proof (moveToSync_delay fuel target m ms trs Hwf Htarget Hrun) as Hdelay.
  cbv zeta in Hdelay. fold goal in Hdelay.
  assert (Htotal : total_delay trs
                   = stepDelay * Z.abs (m_currentStep ms - m_currentStep m)).
  { rewrite Hdelay. f_equal. rewrite Z.gtb_ltb.
    destruct (Z.ltb_spec (m_currentStep m) goal); cbn [step_dir]; lia. }
  exists ms, trs. split; [exact Hrun|]. split; [exact Htotal|].
  intros Hquiet. rewrite Htotal.
  destruct (Z.eq_dec (m_currentStep m) goal) as [Heq|Hne].
  - f_equal. lia.
  - rewrite (moveToSync_travel target m fuel Hwf Htarget Hquiet Hne Hfuel) in Hrun.
    assert (Em : m_currentStep ms = goal) by (injection Hrun as <- _; reflexivity).
    rewrite Em. reflexivity.
Qed.

(** ** Table reads at positions that are not negative *)










(** ** Pacing and the clock *)

Lemma wrap_ulong_elapsed (last d : Z) :
  0 <= d < 2 ^ ULONG_BITS ->
  wrap_ulong (wrap_ulong (last + d) - last) = d.
Proof.
  unfold wrap_ulong, ULONG_BITS. change (2 ^ 32) with 4294967296. intros Hd.
  rewrite Zminus_mod_idemp_l.
  replace (last + d - last) with d by lia.
  apply Z.mod_small. exact Hd.
Qed.

(** X8: pacing survives the roll-over of [millis()].  If the clock has run
    for [d] milliseconds, [d < 2^32], since the step recorded in
    [m_lastStepTime], so that it reads [(m_lastStepTime + d) mod 2^32], an
    active driver short of its target steps exactly when [d >= stepDelay],
    wherever the clock wrapped in between. *)
Theorem update_pacing_survives_rollover (d : Z) (m : MotorControl) :
  m_motorActive m = true ->
  reached m = false ->
  in_int (m_currentStep m + step_dir (m_clockwise m)) ->
  0 <= d < 2 ^ ULONG_BITS ->
  m_currentStep (fst (update (wrap_ulong (m_lastStepTime m + d)) m))
  = if stepDelay <=? d
    then m_currentStep m + step_dir (m_clockwise m)
    else m_currentStep m.
Proof.
  intros Hact Hfar Hin Hd.
  rewrite (update_cases _ m Hact), Hfar, (wrap_ulong_elapsed _ d Hd).
  destruct (stepDelay <=? d); cbn [fst]; [|reflexivity].
  rewrite (stepMotor_exact m Hin). reflexivity.
Qed.

Lemma update_step_records_time (t : Z) (m : MotorControl) :
  m_currentStep (fst (update t m)) <> m_currentStep m ->
  m_lastStepTime (fst (update t m)) = t.
Proof.
  unfold update. destruct (m_motorActive m); [|intros H; contradiction H; reflexivity].
  destruct ((m_clockwise m && (m_currentStep m >=? m_targetStep m))
            || (negb (m_clockwise m) && (m_currentStep m <=? m_targetStep m)));
    [intros H; contradiction H; reflexivity|].
  destruct (wrap_ulong (t - m_lastStepTime m) >=? stepDelay);
    [reflexivity|intros H; contradiction H; reflexivity].
Qed.

Lemma moveToSync_loop_keeps_time (fuel : nat) :
  forall (m m' : MotorControl) (tr : trace),
    moveToSync_loop fuel m = Some (m', tr) ->
    m_lastStepTime m' = m_lastStepTime m.
Proof.
  induction fuel as [|fuel IH]; intros m m' tr Hrun;
    destruct (moveToSync_loop_inv _ _ _ _ Hrun)
      as [(-> & -> & _) | (fuel' & tr' & Efuel & Hact & Hne & Hloop & ->)];
    [reflexivity | discriminate | reflexivity | ].
  injection Efuel as <-.
  rewrite (IH _ _ _ Hloop).
  destruct (callStepCallback_frame (fst (stepMotor m)))
    as [(_ & _ & _ & _ & Etime & _) _].
  rewrite Etime. reflexivity.
Qed.

(** Only [update] writes [m_lastStepTime]. *)
Lemma run_op_keeps_time
  (fuel : nat) (op : Op) (m m' : MotorControl) (tr : trace) :
  not_update op ->
  run_op fuel op m = Some (m', tr) ->
  m_lastStepTime m' = m_lastStepTime m.
Proof.
  intros Hop Hrun.
  destruct op as [t|d| | |t|t|f|z|z]; cbn [run_op not_update] in *;
    try contradiction;
    try (injection Hrun as <- _; reflexivity).
  - injection Hrun as Hrun. unfold moveTo in Hrun.
    destruct (negb (m_currentStep (with_targetStep _ m) =? m_targetStep (with_targetStep _ m)));
      injection Hrun as <- _; reflexivity.
  - unfold moveToSync in Hrun.
    destruct (m_currentStep (with_targetStep _ m) =? m_targetStep (with_targetStep _ m)).
    + injection Hrun as <- _. reflexivity.
    + rewrite (surjective_pairing (activateMotor _ _)) in Hrun.
      destruct (moveToSync_loop fuel _) as [[m3 tr2]|] eqn:Hloop; [|discriminate].
      injection Hrun as <- _.
      cbn [m_lastStepTime deactivateMotor fst with_lastPosition with_motorActive].
      rewrite (moveToSync_loop_keeps_time _ _ _ _ Hloop). reflexivity.
Qed.

Lemma run_ops_keep_time (fuel : nat) (ops : list Op) :
  forall (m m' : MotorControl) (tr : trace),
    Forall not_update ops ->
    run_ops fuel ops m = Some (m', tr) ->
    m_lastStepTime m' = m_lastStepTime m.
Proof.
  induction ops as [|op ops IH]; intros m m' tr Hops Hrun; cbn [run_ops] in Hrun.
  - injection Hrun as <- _. reflexivity.
  - inversion Hops as [|? ? Hop Hops']; subst.
    destruct (run_op fuel op m) as [[m1 tr1]|] eqn:Hone; [|discriminate].
    destruct (run_ops fuel ops m1) as [[m2 tr2]|] eqn:Hrest; [|discriminate].
    injection Hrun as <- _.
    rewrite (IH _ _ _ Hops' Hrest). apply (run_op_keeps_time _ _ _ _ _ Hop Hone).
Qed.

(** X9: two steps made by [update] are never closer than [stepDelay].  If
    the call that read [t1] stepped and, after any operations other than
    [update], the call that read [t2] steps too, then
    [t2 - t1 >= stepDelay] in [unsigned long]: no other member touches
    [m_lastStepTime]. *)
Theorem update_steps_are_paced
  (fuel : nat) (t1 t2 : Z) (between : list Op) (m m2 : MotorControl) (tr : trace) :
  m_currentStep (fst (update t1 m)) <> m_currentStep m ->
  Forall not_update between ->
  run_ops fuel between (fst (update t1 m)) = Some (m2, tr) ->
  m_currentStep (fst (update t2 m2)) <> m_currentStep m2 ->
  stepDelay <= wrap_ulong (t2 - t1).
Proof.
  intros Hfirst Hbetween Hrun Hsecond.
  pose proof (update_step_elapsed t2 m2 Hsecond) as Hgap.
  rewrite (run_ops_keep_time _ _ _ _ _ Hbetween Hrun) in Hgap.
  rewrite (update_step_records_time t1 m Hfirst) in Hgap.
  exact Hgap.
Qed.

(** ** Sequences of raw steps *)

(** [n] steps with the direction flag as it is move the position by [n]
    in that direction, whatever its sign. *)
Lemma stepMotor_rows_state (n : nat) :
  forall m : MotorControl,
    in_int (m_currentStep m) ->
    in_int (m_currentStep m + step_dir (m_clockwise m) * Z.of_nat n) ->
    snd (stepMotor_rows n m)
    = with_currentStep (m_currentStep m + step_dir (m_clockwise m) * Z.of_nat n) m.
Proof.
  induction n as [|n IH]; intros m Hcur Hend.
  - cbn [stepMotor_rows snd]. rewrite Z.mul_0_r, Z.add_0_r, with_currentStep_same.
    reflexivity.
  - assert (Hsign : step_dir (m_clockwise m) = 1 \/ step_dir (m_clockwise m) = -1)
      by (destruct (m_clockwise m); cbn; lia).
    assert (Hin : in_int (m_currentStep m + step_dir (m_clockwise m)))
      by (unfold in_int in *; nia).
    cbn [stepMotor_rows]. rewrite (stepMotor_exact m Hin).
    rewrite (surjective_pairing (stepMotor_rows n _)). cbn [snd].
    rewrite IH; cbn [m_currentStep m_clockwise with_currentStep].
    + unfold with_currentStep. cbn. f_equal. lia.
    + exact Hin.
    + replace (m_currentStep m + step_dir (m_clockwise m)
               + step_dir (m_clockwise m) * Z.of_nat n)
        with (m_currentStep m + step_dir (m_clockwise m) * Z.of_nat (S n)) by lia.
      exact Hend.
Qed.

(** X10: the position counter is exact in both directions.  [n] steps
    clockwise, a re-activation counter-clockwise and [n] steps back restore
    [currentStep], at any position, negative ones included;
    [lastPosition] then holds the turning point. *)
Theorem steps_there_and_back (n : nat) (m : MotorControl) :
  in_int (m_currentStep m) ->
  in_int (m_currentStep m + Z.of_nat n) ->
  let there := snd (stepMotor_rows n (fst (activateMotor true m))) in
  let back := snd (stepMotor_rows n (fst (activateMotor false there))) in
  m_currentStep there = m_currentStep m + Z.of_nat n
  /\ m_currentStep back = m_currentStep m
  /\ m_lastPosition back = m_currentStep m + Z.of_nat n.
Proof.
  intros Hcur Hend there back.
  assert (Ethere : there
                   = with_currentStep (m_currentStep m + Z.of_nat n)
                       (fst (activateMotor true m))).
  { subst there. rewrite stepMotor_rows_state;
      cbn [m_currentStep m_clockwise activateMotor fst with_lastPosition
           with_motorActive with_clockwise step_dir];
      rewrite ?Z.mul_1_l; [reflexivity|exact Hcur|exact Hend]. }
  assert (Eback : back
                  = with_currentStep (m_currentStep m)
                      (fst (activateMotor false there))).
  { subst back. rewrite stepMotor_rows_state; rewrite Ethere;
      cbn [m_currentStep m_clockwise activateMotor fst with_lastPosition
           with_motorActive with_clockwise with_currentStep step_dir].
    - f_equal. lia.
    - exact Hend.
    - replace (m_currentStep m + Z.of_nat n + -1 * Z.of_nat n)
        with (m_currentStep m) by lia.
      exact Hcur. }
  rewrite Eback, Ethere. cbn. repeat split.
Qed.

(** X11: the row index is a row of the table exactly when the position is
    not negative or is a multiple of 4. *)
Theorem stepIndex_in_table_iff (m : MotorControl) :
  0 <= stepIndex m < stepCount
  <-> (0 <= m_currentStep m \/ Z.rem (m_currentStep m) stepCount = 0).
Proof.
  split.
  - intros Hin.
    destruct (Z.le_gt_cases 0 (m_currentStep m)) as [Hpos|Hneg]; [left; exact Hpos|].
    right.
    destruct (Z.eq_dec (Z.rem (m_currentStep m) stepCount) 0) as [E|Hrem]; [exact E|].
    destruct (stepIndex_outside_table m Hneg Hrem); lia.
  - intros [Hpos|Hrem]; [apply stepIndex_in_table; exact Hpos|].
    unfold stepIndex. rewrite Hrem. unfold stepCount.
    destruct (m_clockwise m); lia.
Qed.

(** ** Repeated move requests *)

(** X12: the last request wins.  When the position is not the clamped
    target of the second request, [moveTo t1] followed by [moveTo t2]
    leaves the state, and makes on the second call the external calls, of
    [moveTo t2] alone. *)
Theorem moveTo_last_request_wins (t1 t2 : Z) (m : MotorControl) :
  m_currentStep m <> constrain t2 (m_minStep m) (m_maxStep m) ->
  moveTo t2 (fst (moveTo t1 m)) = moveTo t2 m.
Proof.
  intros Hne. unfold moveTo at 2.
  cbn [m_currentStep m_targetStep with_targetStep].
  destruct (negb (m_currentStep m =? constrain t1 (m_minStep m) (m_maxStep m)));
    unfold moveTo;
    cbn [fst activateMotor m_currentStep m_targetStep m_minStep m_maxStep
         with_targetStep with_clockwise with_motorActive with_lastPosition];
    destruct (Z.eqb_spec (m_currentStep m)
                (constrain t2 (m_minStep m) (m_maxStep m)));
    try contradiction; reflexivity.
Qed.

(** X13: a request for the position the driver is at stops it.  After
    [moveTo] with a target that clamps to [currentStep], whatever was
    requested before, the next [update] leaves the driver inactive where it
    is, without a step. *)
Theorem moveTo_current_position_stops (t1 t2 now : Z) (m : MotorControl) :
  m_currentStep m = constrain t2 (m_minStep m) (m_maxStep m) ->
  let m2 := fst (moveTo t2 (fst (moveTo t1 m))) in
  m_currentStep (fst (update now m2)) = m_currentStep m
  /\ m_motorActive (fst (update now m2)) = false
  /\ existsb isDigitalWrite (snd (update now m2)) = false.
Proof.
  intros Heq m2.
  assert (Em2 : m2 = with_targetStep (m_currentStep m) (fst (moveTo t1 m))).
  { subst m2. unfold moveTo at 1.
    assert (E1 : m_currentStep (fst (moveTo t1 m)) = m_currentStep m)
      by (unfold moveTo; destruct (negb _); reflexivity).
    assert (E2 : m_minStep (fst (moveTo t1 m)) = m_minStep m)
      by (unfold moveTo; destruct (negb _); reflexivity).
    assert (E3 : m_maxStep (fst (moveTo t1 m)) = m_maxStep m)
      by (unfold moveTo; destruct (negb _); reflexivity).
    rewrite E2, E3, <- Heq.
    cbn [m_currentStep m_targetStep with_targetStep]. rewrite E1, Z.eqb_refl.
    reflexivity. }
  assert (Ecur : m_currentStep m2 = m_currentStep m)
    by (rewrite Em2; unfold moveTo; destruct (negb _); reflexivity).
  assert (Etgt : m_targetStep m2 = m_currentStep m) by (rewrite Em2; reflexivity).
  unfold update. rewrite Ecur, Etgt.
  destruct (m_motorActive m2) eqn:Hact.
  - rewrite Z.geb_leb, Z.leb_refl.
    destruct (m_clockwise m2); cbn [andb orb negb];
      (split; [cbn; exact Ecur|split; reflexivity]).
  - split; [exact Ecur|]. split; [exact Hact|reflexivity].
Qed.

(** ** The older class *)

Lemma legacy_run_op_view (fuel : nat) (op : LegacyOp) (m : MotorControl) :
  exists m' tr,
    run_op fuel (legacy_op op) m = Some (m', tr)
    /\ legacy_run_op op (legacy_view m) = (legacy_view m', tr).
Proof.
  destruct op as [d| |]; cbn [legacy_op run_op legacy_run_op];
    eexists; eexists; (split; [apply some_pair|]); reflexivity.
Qed.

(** X14: on the three operations they share, the newer class behaves as
    the older one.  Any sequence of [activateMotor], [deactivateMotor] and
    [stepMotor] calls makes the same external calls on both and leaves the
    same position, last position, direction and activation flag. *)
Theorem legacy_class_simulated (fuel : nat) (ops : list LegacyOp) (m : MotorControl) :
  exists m',
    run_ops fuel (map legacy_op ops) m
    = Some (m', snd (legacy_run_ops ops (legacy_view m)))
    /\ legacy_view m' = fst (legacy_run_ops ops (legacy_view m)).
Proof.
  revert m. induction ops as [|op ops IH]; intros m.
  - exists m. split; reflexivity.
  - destruct (legacy_run_op_view fuel op m) as (m1 & tr1 & Hrun & Hleg).
    destruct (IH m1) as (m2 & Hrun2 & Hview2).
    exists m2. cbn [map run_ops legacy_run_ops].
    rewrite Hrun, Hrun2, Hleg.
    destruct (legacy_run_ops ops (legacy_view m1)) as [l2 tr2].
    cbn [fst snd] in *. split; [reflexivity|exact Hview2].
Qed.

End IntWidth.

(** * Concrete runs *)

Ltac int_range :=
  unfold wf, in_int, INT_MIN, INT_MAX; cbn; lia.

(** ** Rows of the excitation table *)

(** C1: at a negative position the row index leaves the table.  With limits
    [-10 .. 10], [setCurrentStep(-1); stepMotor()] computes row [-1] and
    hands [digitalWrite] four values read before the table; going
    counter-clockwise from 0, the second step computes row [4]. *)
Theorem stepIndex_negative_position :
  stepIndex (setCurrentStep (-1) centred) = -1
  /\ snd (stepMotor 16 (setCurrentStep (-1) centred))
     = [EvDigitalWrite 8 None; EvDigitalWrite 9 None;
        EvDigitalWrite 10 None; EvDigitalWrite 11 None]
  /\ stepIndex (fst (stepMotor 16 (fst (activateMotor false centred)))) = 4
  /\ fst (stepMotor_rows 32 2 (fst (activateMotor false centred))) = [3; 4].
Proof. repeat split. Qed.

(** C5: counter-clockwise, the rows written do not come in reverse order.
    From position 8 five steps write rows 3, 0, 1, 2, 3, the order of
    clockwise travel; and clockwise from position -3 the indices are
    -3, -2, -1, 0, the first three outside the table. *)
Theorem counterclockwise_rows_ascend :
  fst (stepMotor_rows 16 5 (fst (activateMotor false (setCurrentStep 8 blind))))
  = [3; 0; 1; 2; 3]
  /\ fst (stepMotor_rows 32 5 (fst (activateMotor false (setCurrentStep 8 blind))))
     = [3; 0; 1; 2; 3]
  /\ fst (stepMotor_rows 16 5 (setCurrentStep 8 blind)) = [0; 1; 2; 3; 0]
  /\ fst (stepMotor_rows 16 4 (setCurrentStep (-3) centred)) = [-3; -2; -1; 0].
Proof. repeat split. Qed.

(** ** The blocking move *)


(** The run of the second case: one step, one delay, one callback, and the
    driver is left inactive at position 1, two steps short of the target. *)
Lemma moveToSync_stopped_by_callback :
  option_map (fun r => (m_currentStep (fst r), m_motorActive (fst r),
                        callbacks (snd r), total_delay (snd r)))
    (moveToSync 16 stop_at_once 3 3 (setStepCallback (Some 0%nat) blind))
  = Some (1, false, [(0%nat, 1)], 2).
Proof. reflexivity. Qed.


Lemma moveToSync_already_there_witness :
  exists m',
    moveToSync 16 no_calls 0 (-7) blind = Some (m', [])
    /\ m_motorActive m' = m_motorActive blind.
Proof.
  destruct (moveToSync_already_there 16 no_calls 0 (-7) blind ltac:(reflexivity))
    as (m' & Hrun & _ & _ & _ & _ & Hact).
  exists m'. split; assumption.
Defined.

(** ** The polled move *)

Lemma moveTo_then_updates_witness :
  paced [0; 2; 4; 6; 8] /\
  m_currentStep (fst (run_updates 16 [0; 2; 4; 6; 8] (fst (moveTo 2 blind)))) = 2.
Proof.
  assert (Hpaced : paced [0; 2; 4; 6; 8])
    by (repeat split; vm_compute; intro; discriminate).
  split; [exact Hpaced|].
  apply (moveTo_then_updates 16 ltac:(lia) 2 blind [0; 2; 4; 6; 8]
           ltac:(int_range) ltac:(int_range) Hpaced ltac:(cbn; lia)).
Defined.

(** The scenario of the spec: limits 0 and 200, position 0.  [moveTo(50)]
    and 53 paced [update] calls end at 50, inactive; [moveTo(10)] then flips
    the direction, and 43 more calls end at 10, inactive. *)
Lemma scenario_50_then_10 :
  let clock := fun from n => map (fun k => from + 2 * Z.of_nat k) (seq 0 n) in
  let at50 := fst (run_updates 16 (clock 0 53%nat) (fst (moveTo 50 blind))) in
  let turning := fst (moveTo 10 at50) in
  let at10 := fst (run_updates 16 (clock 200 43%nat) turning) in
  (m_currentStep at50, m_motorActive at50) = (50, false)
  /\ (m_clockwise turning, m_motorActive turning) = (false, true)
  /\ (m_currentStep at10, m_motorActive at10) = (10, false).
Proof. vm_compute. repeat split. Qed.

Lemma update_respects_pacing_witness :
  m_currentStep (fst (update 16 7 (with_lastStepTime 6 (fst (moveTo 5 blind))))) = 0.
Proof.
  apply (update_respects_pacing 16 7 (with_lastStepTime 6 (fst (moveTo 5 blind)))
           ltac:(vm_compute; reflexivity)).
Defined.

(** ** Single operations *)

Lemma stepMotor_moves_by_one_witness :
  m_currentStep (fst (stepMotor 16 blind)) = 0 + 1.
Proof.
  apply (stepMotor_moves_by_one 16 ltac:(lia) blind ltac:(int_range)).
Defined.

Lemma deactivateMotor_idle_idempotent_witness :
  m_motorActive blind = false
  /\ m_currentStep (fst (deactivateMotor blind)) = m_currentStep blind.
Proof.
  split; [reflexivity|].
  apply (deactivateMotor_idle_idempotent blind ltac:(reflexivity)).
Defined.

Lemma targetStep_within_limits_witness :
  m_targetStep (fst (moveTo (0 - 5) blind)) = 0
  /\ m_targetStep (fst (moveTo (200 + 5) blind)) = 200.
Proof.
  apply (targetStep_within_limits 16 stop_at_once ltac:(lia) 300 blind
           [OpUpdate 5; OpStepMotor; OpMoveToSync 3] (Z.to_nat (2 ^ 16))
           ltac:(int_range) ltac:(int_range)
           ltac:(repeat constructor; int_range)
           ltac:(apply le_n) ltac:(cbn; lia)).
Defined.

(** C9, as stated, fails: [setLastPosition(7)] changes [lastPosition]
    without any activation or deactivation, and not to the current
    position. *)
Lemma setLastPosition_writes_lastPosition :
  ~ lastPosition_only_at_transitions 16 no_calls 0 (OpSetLastPosition 7) blind.
Proof.
  intros Hclaim.
  destruct (Hclaim (setLastPosition 7 blind) [] eq_refl) as [H | [H _]];
    discriminate H.
Qed.

Lemma lastPosition_writers_witness :
  lastPosition_only_at_transitions 16 no_calls 0 OpStepMotor blind.
Proof.
  apply (lastPosition_writers 16 no_calls 0 OpStepMotor blind
           ltac:(intros z; discriminate)).
Defined.

(** ** Further properties at concrete inputs *)

Lemma update_never_leaves_target_witness :
  Z.abs (m_targetStep (fst (moveTo 5 blind))
         - m_currentStep (fst (update 16 2 (fst (moveTo 5 blind)))))
  <= Z.abs (m_targetStep (fst (moveTo 5 blind))
            - m_currentStep (fst (moveTo 5 blind))).
Proof.
  apply (update_never_leaves_target 16 ltac:(lia) 2 (fst (moveTo 5 blind))
           ltac:(int_range) ltac:(int_range)).
Defined.


Lemma motorActive_mirrors_pinMode_witness :
  exists m' tr,
    run_ops 16 stop_at_once (Z.to_nat (2 ^ 16))
      [OpSetStepCallback (Some 0%nat); OpMoveTo 3; OpUpdate 2; OpDeactivateMotor;
       OpMoveToSync 1] blind
    = Some (m', tr)
    /\ m_motorActive m' = drive_state tr false.
Proof.
  apply (motorActive_mirrors_pinMode 16 stop_at_once ltac:(lia) (Z.to_nat (2 ^ 16))
           [OpSetStepCallback (Some 0%nat); OpMoveTo 3; OpUpdate 2; OpDeactivateMotor;
            OpMoveToSync 1] blind
           ltac:(int_range)
           ltac:(repeat constructor; int_range)
           ltac:(apply le_n)).
Defined.

Lemma polled_operations_never_call_back_witness :
  exists m' tr,
    run_ops 16 stop_at_once 0
      [OpSetStepCallback (Some 0%nat); OpMoveTo 2; OpUpdate 2; OpUpdate 4; OpUpdate 6]
      blind
    = Some (m', tr)
    /\ callbacks tr = [].
Proof.
  apply (polled_operations_never_call_back 16 stop_at_once 0
           [OpSetStepCallback (Some 0%nat); OpMoveTo 2; OpUpdate 2; OpUpdate 4; OpUpdate 6]
           blind ltac:(repeat constructor)).
Defined.

Lemma polled_move_matches_blocking_witness :
  exists ms trs,
    moveToSync 16 no_calls 2 2 (setStepCallback (Some 0%nat) blind) = Some (ms, trs)
    /\ with_lastStepTime 0
         (fst (run_updates 16 [0; 2; 4; 6; 8]
                 (fst (moveTo 2 (setStepCallback (Some 0%nat) blind))))) = ms
    /\ snd (moveTo 2 (setStepCallback (Some 0%nat) blind))
       ++ snd (run_updates 16 [0; 2; 4; 6; 8]
                 (fst (moveTo 2 (setStepCallback (Some 0%nat) blind))))
       = filter isPinCall trs.
Proof.
  apply (polled_move_matches_blocking 16 no_calls ltac:(lia) 2
           (setStepCallback (Some 0%nat) blind) [0; 2; 4; 6; 8] 2
           ltac:(int_range) ltac:(int_range)
           ltac:(intros f _ m0; reflexivity)
           ltac:(vm_compute; discriminate)
           ltac:(repeat split; vm_compute; intro; discriminate)
           ltac:(cbn; lia) ltac:(cbn; lia)).
Defined.

Lemma moveToSync_total_delay_witness :
  exists ms trs,
    moveToSync 16 stop_at_once 3 3 (setStepCallback (Some 0%nat) blind)
    = Some (ms, trs)
    /\ total_delay trs = stepDelay * Z.abs (m_currentStep ms - 0).
Proof.
  destruct (moveToSync_total_delay 16 stop_at_once ltac:(lia) 3
              (setStepCallback (Some 0%nat) blind) 3
              ltac:(int_range) ltac:(int_range) ltac:(cbn; lia))
    as (ms & trs & Hrun & Htotal & _).
  exists ms, trs. split; [exact Hrun|exact Htotal].
Defined.


Lemma update_pacing_survives_rollover_witness :
  m_currentStep
    (fst (update 16 (wrap_ulong (4294967295 + 2))
            (with_lastStepTime 4294967295 (fst (moveTo 5 blind)))))
  = 0 + 1.
Proof.
  apply (update_pacing_survives_rollover 16 ltac:(lia) 2
           (with_lastStepTime 4294967295 (fst (moveTo 5 blind)))
           ltac:(reflexivity) ltac:(reflexivity) ltac:(int_range)
           ltac:(vm_compute; split; [intro; discriminate|reflexivity])).
Defined.

Lemma update_steps_are_paced_witness :
  stepDelay <= wrap_ulong (4 - 2).
Proof.
  apply (update_steps_are_paced 16 no_calls 0 2 4
           [OpSetLastPosition 9; OpDeactivateMotor; OpMoveTo 7]
           (fst (moveTo 5 blind))
           (fst (moveTo 7 (fst (deactivateMotor
              (setLastPosition 9 (fst (update 16 2 (fst (moveTo 5 blind)))))))))
           (snd (deactivateMotor blind) ++ snd (activateMotor true blind))
           ltac:(vm_compute; discriminate)
           ltac:(repeat constructor)
           ltac:(reflexivity)
           ltac:(vm_compute; discriminate)).
Defined.

Lemma steps_there_and_back_witness :
  m_currentStep
    (snd (stepMotor_rows 16 6
            (fst (activateMotor false
                    (snd (stepMotor_rows 16 6
                            (fst (activateMotor true (setCurrentStep (-3) centred)))))))))
  = -3.
Proof.
  apply (steps_there_and_back 16 ltac:(lia) 6 (setCurrentStep (-3) centred)
           ltac:(int_range) ltac:(int_range)).
Defined.

Lemma moveTo_last_request_wins_witness :
  moveTo 10 (fst (moveTo 50 blind)) = moveTo 10 blind.
Proof.
  apply (moveTo_last_request_wins 50 10 blind ltac:(vm_compute; discriminate)).
Defined.

Lemma moveTo_current_position_stops_witness :
  m_motorActive (fst (update 16 9 (fst (moveTo (-4) (fst (moveTo 50 blind)))))) = false.
Proof.
  apply (moveTo_current_position_stops 16 50 (-4) 9 blind ltac:(reflexivity)).
Defined.

Lemma stepMotor_rows_clockwise_witness :
  stepMotor_rows 16 6 (setCurrentStep 2 blind)
  = ([2; 3; 0; 1; 2; 3], with_currentStep 8 (setCurrentStep 2 blind)).
Proof.
  apply (stepMotor_rows_clockwise 16 ltac:(lia) 6 (setCurrentStep 2 blind)
           ltac:(reflexivity) ltac:(cbn; lia) ltac:(int_range)).
Defined.

Lemma stepMotor_rows_counterclockwise_witness :
  stepMotor_rows 16 4 (fst (activateMotor false (setCurrentStep 5 blind)))
  = ([2; 3; 0; 1],
     with_currentStep 1 (fst (activateMotor false (setCurrentStep 5 blind)))).
Proof.
  apply (stepMotor_rows_counterclockwise 16 ltac:(lia) 4
           (fst (activateMotor false (setCurrentStep 5 blind)))
           ltac:(reflexivity) ltac:(cbn; lia) ltac:(int_range)).
Defined.
